(** * Yangzhou COVID bulletin scraper: a shallow embedding of [main.py]

    The program walks the [span] nodes of a bulletin page, recognises the
    paragraphs that open a confirmed case with regular expressions, pulls a
    few typed fields out of the paragraph text and finally writes the
    non-empty records to the console and to [result.csv].

    Python values are modelled as follows.
    - A [str] is a list of Unicode code points ([text]); literals of the
      source are written as UTF-8 string literals and decoded with [u].
    - An [int] is a [Z].
    - An exception is the [Raise] branch of [result]; nothing in the source
      catches one, so a raised exception ends the run.
    - [re] patterns are terms of [regex], run by a backtracking matcher with
      the priorities of Python's engine (leftmost start, greedy [+], lazy
      [*?], left alternative first).
    - A parsed page ([BeautifulSoup]) is the list of its [a] tags and the
      list of texts of its [span] tags, in document order; the attributes of
      a tag are a finite map from attribute name to value.
    - [sys.stderr], [sys.stdout] and the written file are lists of the
      strings written to them. *)

From Stdlib Require Import ZArith Lia List String Ascii Permutation Sorted.
From Stdlib.Strings Require Import Byte.
From stdpp Require Import gmap strings.
Import ListNotations.

Local Open Scope Z_scope.

(** ** Text *)

Definition char := Z.
Definition text := list char.

(** Decoder for the UTF-8 string literals of this file. *)
Fixpoint utf8_decode (bs : list Z) : text :=
  match bs with
  | [] => []
  | b0 :: r1 =>
    if b0 <? 128 then b0 :: utf8_decode r1 else
    match r1 with
    | [] => []
    | b1 :: r2 =>
      if b0 <? 224 then
        Z.lor (Z.shiftl (Z.land b0 31) 6) (Z.land b1 63) :: utf8_decode r2
      else
      match r2 with
      | [] => []
      | b2 :: r3 =>
        if b0 <? 240 then
          Z.lor (Z.shiftl (Z.land b0 15) 12)
                (Z.lor (Z.shiftl (Z.land b1 63) 6) (Z.land b2 63))
            :: utf8_decode r3
        else
        match r3 with
        | [] => []
        | b3 :: r4 =>
          Z.lor (Z.shiftl (Z.land b0 7) 18)
                (Z.lor (Z.shiftl (Z.land b1 63) 12)
                       (Z.lor (Z.shiftl (Z.land b2 63) 6) (Z.land b3 63)))
            :: utf8_decode r4
        end
      end
    end
  end.

Definition u (s : string) : text :=
  utf8_decode (map (fun b => Z.of_N (Byte.to_N b)) (list_byte_of_string s)).

Definition newline : char := 10.
Definition tab : char := 9.
Definition comma : char := 44.

(** ** Exceptions *)

Inductive exn :=
| TypeError    (* subscripting [None] *)
| IndexError   (* list index out of range, no such group *)
| KeyError     (* missing tag attribute *)
| ValueError   (* invalid literal for [int] *)
| URLError.    (* the page could not be fetched *)

Inductive result (A : Type) :=
| Ok (a : A)
| Raise (e : exn).
Arguments Ok {A} a.
Arguments Raise {A} e.

Definition bind {A B} (m : result A) (f : A -> result B) : result B :=
  match m with
  | Ok a => f a
  | Raise e => Raise e
  end.

Notation "x <- m ;; k" := (bind m (fun x => k))
  (at level 100, m at next level, right associativity).

(** ** Regular expressions *)

Module Re.

(** One-character items. *)
Inductive cclass :=
| Lit (c : char)            (* the character itself *)
| Range (lo hi : char)      (* [lo-hi] *)
| Dot.                      (* .  (anything but a newline) *)

Inductive regex :=
| Eps
| Atom (a : cclass)
| Seq (r1 r2 : regex)
| Alt (r1 r2 : regex)       (* r1|r2 *)
| Plus (a : cclass)         (* a+ *)
| LazyStar (a : cclass)     (* a*? *)
| Group (r : regex).        (* (r) *)

Definition accepts (a : cclass) (c : char) : bool :=
  match a with
  | Lit c' => c =? c'
  | Range lo hi => (lo <=? c) && (c <=? hi)
  | Dot => negb (c =? newline)
  end.

(** A literal string as a pattern. *)
Fixpoint lits (s : text) : regex :=
  match s with
  | [] => Eps
  | c :: s' => Seq (Atom (Lit c)) (lits s')
  end.

(** The matcher is written in continuation-passing style: [k] is what
    remains to be matched after the current pattern; the result is the
    matched text, built while returning.  A failed continuation makes the
    matcher backtrack. *)
Definition consumed (c : char) (o : option text) : option text :=
  match o with
  | Some m => Some (c :: m)
  | None => None
  end.

Definition orelse (o1 o2 : option text) : option text :=
  match o1 with
  | Some m => Some m
  | None => o2
  end.

Fixpoint greedy_star (a : cclass) (s : text) (k : text -> option text)
  : option text :=
  match s with
  | c :: s' =>
    if accepts a c
    then orelse (consumed c (greedy_star a s' k)) (k s)
    else k s
  | [] => k []
  end.

Fixpoint lazy_star (a : cclass) (s : text) (k : text -> option text)
  : option text :=
  orelse (k s)
         match s with
         | c :: s' => if accepts a c then consumed c (lazy_star a s' k) else None
         | [] => None
         end.

Fixpoint run (r : regex) (s : text) (k : text -> option text) : option text :=
  match r with
  | Eps => k s
  | Atom a =>
    match s with
    | c :: s' => if accepts a c then consumed c (k s') else None
    | [] => None
    end
  | Seq r1 r2 => run r1 s (fun s' => run r2 s' k)
  | Alt r1 r2 => orelse (run r1 s k) (run r2 s k)
  | Plus a =>
    match s with
    | c :: s' => if accepts a c then consumed c (greedy_star a s' k) else None
    | [] => None
    end
  | LazyStar a => lazy_star a s k
  | Group r' => run r' s k
  end.

Definition accept : text -> option text := fun _ => Some [].

(** [re.match(r, s)]: the pattern is tried at the start of [s] only.  The
    result is group 0 of the match object, [None] when there is no match. *)
Definition match_ (r : regex) (s : text) : option text := run r s accept.

(** [re.search(r, s)]: the first position of [s], from the left, at which
    the pattern matches. *)
Fixpoint search (r : regex) (s : text) : option text :=
  match match_ r s with
  | Some m => Some m
  | None =>
    match s with
    | [] => None
    | _ :: s' => search r s'
    end
  end.

(** Truth value of a match result ([if m:]). *)
Definition found (m : option text) : bool :=
  match m with
  | Some _ => true
  | None => false
  end.

End Re.
Import Re.

(** ** Python built-ins *)

Definition digit : cclass := Range 48 57.   (* [0-9] *)

Definition is_digit (c : char) : bool := accepts digit c.

(** Value of a run of ASCII digits. *)
Definition int_of_digits (ds : text) : Z :=
  fold_left (fun acc d => 10 * acc + (d - 48)) ds 0.

(** [sys.int_info.default_max_str_digits]: the interpreter refuses to
    convert a string of more digits to an integer. *)
Definition int_max_str_digits : nat := 4300.

(** [int(s)] under a limit of [max_digits] digits ([0] switches the limit
    off, as [sys.set_int_max_str_digits(0)] does), for the literals this
    program meets: an optional sign followed by ASCII digits.  The sign does
    not count as a digit.  Python's other spellings (surrounding blanks,
    underscores, non-ASCII digits) are outside the model. *)
Definition int_with (max_digits : nat) (s : text) : result Z :=
  let body (ds : text) : result Z :=
    match ds with
    | [] => Raise ValueError
    | _ =>
      if forallb is_digit ds then
        if (0 <? max_digits)%nat && (max_digits <? length ds)%nat
        then Raise ValueError
        else Ok (int_of_digits ds)
      else Raise ValueError
    end in
  match s with
  | c :: ds =>
    if c =? 45 then v <- body ds ;; Ok (- v)
    else if c =? 43 then body ds
    else body s
  | [] => Raise ValueError
  end.

(** [int(s)] as the program calls it: the limit is the interpreter's
    default. *)
Definition int (s : text) : result Z := int_with int_max_str_digits s.

(** Decimal digits of a non-negative integer, most significant first. *)
Fixpoint digits_of (fuel : nat) (n : Z) (acc : text) : text :=
  match fuel with
  | O => acc
  | S fuel' =>
    let acc' := (48 + n mod 10) :: acc in
    if n <? 10 then acc' else digits_of fuel' (n / 10) acc'
  end.

(** [str(n)], which is also what ['{}'.format(n)] renders.  The integers
    the program renders come from [int] or are -1, 0 or 1, so the
    interpreter's limit on the number of digits is never met here. *)
Definition str (n : Z) : text :=
  if n <? 0
  then 45 :: digits_of (S (Z.to_nat (Z.log2 (- n)))) (- n) []
  else digits_of (S (Z.to_nat (Z.log2 n))) n [].

(** [s[lo:hi]] with Python's treatment of negative and out-of-range bounds. *)
Definition slice (s : text) (lo hi : Z) : text :=
  let n := Z.of_nat (length s) in
  let clamp i := Z.max 0 (Z.min n (if i <? 0 then i + n else i)) in
  let lo' := clamp lo in
  let hi' := clamp hi in
  firstn (Z.to_nat (hi' - lo')) (skipn (Z.to_nat lo') s).

(** [s.split(sep)] for a one-character separator. *)
Fixpoint split (sep : char) (s : text) : list text :=
  match s with
  | [] => [[]]
  | c :: s' =>
    if c =? sep then [] :: split sep s'
    else match split sep s' with
         | w :: ws => (c :: w) :: ws
         | [] => [[c]]
         end
  end.

(** ** The program *)

(** *** [class Case] *)

Record Case := mkCase {
  case_id : Z;
  gender : Z;            (* -1 for not specified, 0 for male, 1 for female *)
  close_contact_id : Z;
  age : Z;
  address : text;
  trace : text
}.

(** [Case()], every argument at its default. *)
Definition Case_init : Case := mkCase (-1) (-1) (-1) (-1) [] [].

Definition with_case_id (v : Z) (c : Case) : Case :=
  mkCase v (gender c) (close_contact_id c) (age c) (address c) (trace c).
Definition with_gender (v : Z) (c : Case) : Case :=
  mkCase (case_id c) v (close_contact_id c) (age c) (address c) (trace c).
Definition with_close_contact_id (v : Z) (c : Case) : Case :=
  mkCase (case_id c) (gender c) v (age c) (address c) (trace c).
Definition with_age (v : Z) (c : Case) : Case :=
  mkCase (case_id c) (gender c) (close_contact_id c) v (address c) (trace c).
Definition with_address (v : text) (c : Case) : Case :=
  mkCase (case_id c) (gender c) (close_contact_id c) (age c) v (trace c).
Definition with_trace (v : text) (c : Case) : Case :=
  mkCase (case_id c) (gender c) (close_contact_id c) (age c) (address c) v.

(** [Case.__str__] *)
Definition Case_str (c : Case) : text :=
  u "Confirmed case #" ++ str (case_id c) ++ [newline; tab] ++
  u "Gender: " ++ str (gender c) ++ [newline; tab] ++
  u "Age: " ++ str (age c) ++ [newline; tab] ++
  u "Home address: " ++ address c ++ [newline; tab] ++
  u "Close contact of case #" ++ str (close_contact_id c) ++ [newline; tab] ++
  u "Activities: " ++ trace c ++ [newline].

(** [Case.csv] *)
Definition csv (c : Case) : text :=
  str (case_id c) ++ [comma] ++ str (gender c) ++ [comma] ++
  str (age c) ++ [comma] ++ address c ++ [comma] ++
  str (close_contact_id c) ++ [comma] ++ trace c ++ [newline].

(** [Case.is_empty] *)
Definition is_empty (c : Case) : bool :=
  (gender c =? -1) && (close_contact_id c =? -1) && (age c =? -1) &&
  bool_decide (address c = []) && bool_decide (trace c = []).

(** *** Output streams *)

(** [print(x, file=f)] appends [x] and a line end to the stream. *)
Definition print (x : text) (stream : list text) : list text :=
  stream ++ [x ++ [newline]].

(** [dbg_print(s, level)] *)
Definition dbg_print (s : text) (level : text) (stderr : list text) : list text :=
  print (u "[" ++ level ++ u "] " ++ s) stderr.

Definition DEBUG : text := u "DEBUG".

(** *** Patterns of the source *)

Definition pat_number : regex := Plus digit.                                (* '[0-9]+' *)
Definition pat_case : regex := Seq (lits (u "确诊病例")) (Plus digit).      (* '确诊病例[0-9]+' *)
Definition pat_close_contact : regex := Seq (Plus digit) (lits (u "密接")). (* '[0-9]+密接' *)
Definition pat_gender : regex := Alt (lits (u "男")) (lits (u "女")).       (* '男|女' *)
Definition pat_age : regex := Seq (Plus digit) (lits (u "岁")).             (* '[0-9]+岁' *)
Definition pat_address : regex :=                                           (* '现住(.*?)。' *)
  Seq (lits (u "现住")) (Seq (Group (LazyStar Dot)) (lits (u "。"))).
Definition pat_trace : regex := lits (u "活动轨迹").                        (* '活动轨迹' *)
Definition pat_link : regex :=                                              (* '[0-9]+月[0-9]+日扬州' *)
  Seq (Plus digit) (Seq (lits (u "月")) (Seq (Plus digit) (lits (u "日扬州")))).

(** *** [extract_number] *)

(** [d[i]] on the result of a search with a pattern without groups:
    [None] is not subscriptable, and only group 0 exists. *)
Definition subscript (d : option text) (i : Z) : result text :=
  match d with
  | None => Raise TypeError
  | Some m => if i =? 0 then Ok m else Raise IndexError
  end.

Definition extract_number (s : text) (i : Z) : result Z :=
  let d := search pat_number s in
  g <- subscript d i ;;
  int g.

(** *** Parsed pages *)

Record Tag := mkTag {
  get_text : text;
  attrs : gmap string text
}.

(** [tag[key]] *)
Definition getitem (t : Tag) (key : string) : result text :=
  match attrs t !! key with
  | Some v => Ok v
  | None => Raise KeyError
  end.

Record BeautifulSoup := mkSoup {
  find_all_a : list Tag;       (* soup.find_all('a') *)
  find_all_span : list Tag     (* soup.find_all('span') *)
}.

(** *** [find_cases] *)

(** The variables of the loop. *)
Record walk := mkWalk {
  all_cases : list Case;
  dbg_cnt : Z;
  dbg_found_cnt : Z;
  flag : bool;
  stderr : list text
}.

Definition walk_init (stderr0 : list text) : walk := mkWalk [] 0 0 false stderr0.

(** [cases[-1].trace = text] *)
Definition set_last_trace (cases : list Case) (t : text) : result (list Case) :=
  let i := (length cases - 1)%nat in
  match cases !! i with
  | None => Raise IndexError
  | Some c => Ok (<[i := with_trace t c]> cases)
  end.

(** The body of [if re.match('确诊病例[0-9]+', text):] up to the [append]:
    the record built from the paragraph, and the diagnostics written. *)
Definition read_case (t : text) (stderr0 : list text) : result (Case * list text) :=
  let case := Case_init in
  n <- extract_number t 0 ;;
  let case := with_case_id n case in
  (* close contact *)
  let ccres := search pat_close_contact t in
  r <- match ccres with
       | Some m =>
         ccnum <- extract_number m 0 ;;
         Ok (with_close_contact_id ccnum case, stderr0)
       | None =>
         Ok (with_close_contact_id (-1) case,
             dbg_print (u "no close contact found for " ++ str (case_id case))
                       (u "WARN ") stderr0)
       end ;;
  let '(case, stderr1) := r in
  (* gender *)
  let gres := search pat_gender t in
  let '(case, stderr2) :=
    match gres with
    | None =>
      (case,
       dbg_print (u "unexpected: did not find gender for " ++ str (case_id case) ++
                  u ", check source format?") (u "ERROR") stderr1)
    | Some m =>
      if bool_decide (m = u "男")
      then (with_gender 0 case, stderr1)
      else (with_gender 1 case, stderr1)
    end in
  (* age *)
  let ageres := search pat_age t in
  r <- match ageres with
       | None =>
         Ok (case,
             dbg_print (u "unexpected: did not find age for " ++ str (case_id case) ++
                        u ", check source format?") (u "ERROR") stderr2)
       | Some m =>
         a <- extract_number m 0 ;;
         Ok (with_age a case, stderr2)
       end ;;
  let '(case, stderr3) := r in
  (* home address *)
  let ares := search pat_address t in
  let '(case, stderr4) :=
    match ares with
    | None =>
      (case,
       dbg_print (u "unexpected: did not find address for " ++ str (case_id case) ++
                  u ", check source format?") (u "ERROR") stderr3)
    | Some m =>
      (with_address (slice m 2 (-1)) case, stderr3)
    end in
  Ok (case, stderr4).

(** One iteration of [for span in spans:]. *)
Definition span_step (w : walk) (span : Tag) : result walk :=
  let dbg_cnt1 := dbg_cnt w + 1 in
  let t := get_text span in
  r <- (if flag w
        then cases <- set_last_trace (all_cases w) t ;; Ok (cases, false)
        else Ok (all_cases w, flag w)) ;;
  let '(cases1, flag1) := r in
  r <- (if found (match_ pat_case t)
        then
          r <- read_case t (stderr w) ;;
          let '(case, stderr1) := r in
          Ok (cases1 ++ [case], dbg_found_cnt w + 1, stderr1)
        else Ok (cases1, dbg_found_cnt w, stderr w)) ;;
  let '(cases2, dbg_found_cnt2, stderr2) := r in
  let flag2 := if found (match_ pat_trace t) then true else flag1 in
  Ok (mkWalk cases2 dbg_cnt1 dbg_found_cnt2 flag2 stderr2).

(** The whole loop, from any state of its variables. *)
Fixpoint walk_spans (w : walk) (spans : list Tag) : result walk :=
  match spans with
  | [] => Ok w
  | span :: rest => w' <- span_step w span ;; walk_spans w' rest
  end.

Definition find_cases (soup : BeautifulSoup) (stderr0 : list text)
  : result (list Case * list text) :=
  let spans := find_all_span soup in
  w <- walk_spans (walk_init stderr0) spans ;;
  let stderr1 :=
    dbg_print (u "Total " ++ str (dbg_cnt w) ++ u " spans iterated, found " ++
               str (dbg_found_cnt w)) DEBUG (stderr w) in
  Ok (all_cases w, stderr1).

(** The records alone. *)
Definition cases_of (r : result (list Case * list text)) : result (list Case) :=
  x <- r ;; Ok (fst x).

(** A page given by the texts of its [span] nodes. *)
Definition page (spans : list text) : BeautifulSoup :=
  mkSoup [] (map (fun t => mkTag t ∅) spans).

Definition extract (spans : list text) : result (list Case) :=
  cases_of (find_cases (page spans) []).

(** *** [create_soup], [compile_url_list] and the main program *)

(** [list.sort(key=lambda case: case.case_id)]: a stable sort, written as
    an insertion sort (a record goes before the first one whose key is not
    smaller). *)
Fixpoint insert_by_id (c : Case) (l : list Case) : list Case :=
  match l with
  | [] => [c]
  | d :: l' =>
    if case_id c <=? case_id d then c :: d :: l' else d :: insert_by_id c l'
  end.

Definition sort_by_id (l : list Case) : list Case :=
  fold_right insert_by_id [] l.

(** What a run leaves behind. *)
Record output := mkOutput {
  out_stdout : list text;
  out_stderr : list text;
  result_csv : list text      (* the strings passed to [writer.write] *)
}.

(** [for case in all_cases: if not case.is_empty(): print(case)] *)
Definition report (all : list Case) (stdout0 : list text) : list text :=
  fold_left (fun out case =>
               if negb (is_empty case) then print (Case_str case) out else out)
            all stdout0.

(** ['case_id,gender,age,address,close_contact,trace\n'] *)
Definition header : text :=
  u "case_id,gender,age,address,close_contact,trace" ++ [newline].

(** The body of [with open('result.csv', 'w') as writer:] *)
Definition export (all : list Case) : list text :=
  let file := [header] in
  fold_left (fun file case =>
               if negb (is_empty case) then file ++ [csv case] else file)
            all file.

Section Web.

(** The network and the markup parser: [BeautifulSoup(urlopen(url).read(),
    'html.parser')], or the exception raised by the fetch. *)
Variable fetch : text -> result BeautifulSoup.

(** [str(urllist)], Python's rendering of a list of strings. *)
Variable str_of_list : list text -> text.

Definition create_soup (url : text) (stderr0 : list text)
  : result (BeautifulSoup * list text) :=
  soup <- fetch url ;;
  Ok (soup, dbg_print (u "soup created for " ++ url) DEBUG stderr0).

(** [for a in soup.find_all('a'):] of [compile_url_list] *)
Fixpoint collect_links (urllist : list text) (tags : list Tag) : result (list text) :=
  match tags with
  | [] => Ok urllist
  | a :: rest =>
    let t := get_text a in
    urllist' <- (if found (match_ pat_link t)
                 then href <- getitem a "href" ;; Ok (urllist ++ [href])
                 else Ok urllist) ;;
    collect_links urllist' rest
  end.

Definition compile_url_list (entry_url : text) (stderr0 : list text)
  : result (list text * list text) :=
  let urllist := [] in
  r <- create_soup entry_url stderr0 ;;
  let '(soup, stderr1) := r in
  urllist <- collect_links urllist (find_all_a soup) ;;
  Ok (urllist,
      dbg_print (u "Generated url list: " ++ str_of_list urllist) (u "INFO ") stderr1).

(** [for url in urls:] of the main program *)
Fixpoint visit (all : list Case) (stderr0 : list text) (urls : list text)
  : result (list Case * list text) :=
  match urls with
  | [] => Ok (all, stderr0)
  | url :: rest =>
    let stderr1 := dbg_print (u "Parsing " ++ url) (u "INFO ") stderr0 in
    r <- create_soup url stderr1 ;;
    let '(soup, stderr2) := r in
    r <- find_cases soup stderr2 ;;
    let '(cases, stderr3) := r in
    visit (fold_left (fun all case => all ++ [case]) cases all) stderr3 rest
  end.

Definition start_url : text := u "https://mp.weixin.qq.com/s/tDD81B2sG72wznffKQFmmQ".

(** The [__main__] block.  Opening and writing [result.csv] is taken to
    succeed. *)
Definition main : result output :=
  r <- compile_url_list start_url [] ;;
  let '(urls, stderr1) := r in
  let urls := urls ++ [start_url] in
  r <- visit [] stderr1 urls ;;
  let '(all, stderr2) := r in
  let all := sort_by_id all in
  let stdout1 := report all [] in
  let file := export all in
  Ok (mkOutput stdout1 (dbg_print (u "result saved to result.csv") (u "INFO ") stderr2) file).

End Web.

(** ** Reference notions used in the statements *)

(** The digits at the very start of a text. *)
Fixpoint digit_run (s : text) : text :=
  match s with
  | c :: s' => if is_digit c then c :: digit_run s' else []
  | [] => []
  end.

(** The first run of digits of a text, empty when it has none. *)
Fixpoint first_digit_run (s : text) : text :=
  match s with
  | [] => []
  | c :: s' => if is_digit c then digit_run s else first_digit_run s'
  end.

(** The texts a pattern denotes. *)
Inductive matches : regex -> text -> Prop :=
| M_eps : matches Eps []
| M_atom a c : accepts a c = true -> matches (Atom a) [c]
| M_seq r1 r2 m1 m2 :
    matches r1 m1 -> matches r2 m2 -> matches (Seq r1 r2) (m1 ++ m2)
| M_alt_l r1 r2 m : matches r1 m -> matches (Alt r1 r2) m
| M_alt_r r1 r2 m : matches r2 m -> matches (Alt r1 r2) m
| M_plus a c m :
    accepts a c = true -> forallb (accepts a) m = true -> matches (Plus a) (c :: m)
| M_lazy a m : forallb (accepts a) m = true -> matches (LazyStar a) m
| M_group r m : matches r m -> matches (Group r) m.

(** The value of a run of digits, position by position. *)
Fixpoint decimal (ds : text) : Z :=
  match ds with
  | [] => 0
  | d :: ds' => (d - 48) * 10 ^ Z.of_nat (length ds') + decimal ds'
  end.

(** The run is short enough for [int]. *)
Definition within_limit (ds : text) : bool :=
  (length ds <=? int_max_str_digits)%nat.

(** The tests on a node text: it opens a case, it is an activity-trace
    label, it is the text of a bulletin link. *)
Definition is_case (t : text) : bool := found (match_ pat_case t).
Definition is_label (t : text) : bool := found (match_ pat_trace t).
Definition is_link (t : text) : bool := found (match_ pat_link t).

(** What a successful run looks like: a prefix in the pattern's language,
    then the continuation's own success on the rest. *)
Definition splits (P : text -> Prop) (s : text) (k : text -> option text)
  (m : text) : Prop :=
  exists m1 m2 s', s = m1 ++ s' /\ P m1 /\ k s' = Some m2 /\ m = m1 ++ m2.

(** What each field search contributes, on its own. *)
Definition field_close_contact (t : text) : Z :=
  match search pat_close_contact t with
  | Some m => int_of_digits (first_digit_run m)
  | None => -1
  end.

Definition field_gender (t : text) : Z :=
  match search pat_gender t with
  | Some m => if bool_decide (m = u "男") then 0 else 1
  | None => -1
  end.

Definition field_age (t : text) : Z :=
  match search pat_age t with
  | Some m => int_of_digits (first_digit_run m)
  | None => -1
  end.

Definition field_address (t : text) : text :=
  match search pat_address t with
  | Some m => slice m 2 (-1)
  | None => []
  end.

(** Every run of digits that [read_case] hands to [int] is short enough:
    the identifier, and the close contact and the age when they are
    found. *)
Definition ints_readable (t : text) : bool :=
  within_limit (first_digit_run t) &&
  match search pat_close_contact t with
  | Some m => within_limit (first_digit_run m)
  | None => true
  end &&
  match search pat_age t with
  | Some m => within_limit (first_digit_run m)
  | None => true
  end.

(** The node opens a case with a number too long for [int]. *)
Definition unreadable (t : text) : bool := is_case t && negb (ints_readable t).

(** No node of the page opens a case with a number too long for [int]. *)
Definition readable_page (D : list text) : bool :=
  forallb (fun t => negb (unreadable t)) D.

(** The record of a paragraph, before any activity trace is attached. *)
Definition record_of (t : text) : Case :=
  mkCase (int_of_digits (first_digit_run t)) (field_gender t)
         (field_close_contact t) (field_age t) (field_address t) [].

(** The line [dbg_print] writes. *)
Definition dbg_line (s level : text) : text :=
  (u "[" ++ level ++ u "] " ++ s) ++ [newline].

(** The diagnostics of a paragraph. *)
Definition warnings (t : text) : list text :=
  let id := str (int_of_digits (first_digit_run t)) in
  (if found (search pat_close_contact t) then []
   else [dbg_line (u "no close contact found for " ++ id) (u "WARN ")]) ++
  (if found (search pat_gender t) then []
   else [dbg_line (u "unexpected: did not find gender for " ++ id ++
                   u ", check source format?") (u "ERROR")]) ++
  (if found (search pat_age t) then []
   else [dbg_line (u "unexpected: did not find age for " ++ id ++
                   u ", check source format?") (u "ERROR")]) ++
  (if found (search pat_address t) then []
   else [dbg_line (u "unexpected: did not find address for " ++ id ++
                   u ", check source format?") (u "ERROR")]).

(** No activity-trace label is followed by a further node before the first
    paragraph that opens a case. *)
Fixpoint orphan_free (D : list text) : bool :=
  match D with
  | [] => true
  | t :: rest =>
    if is_case t then true
    else if is_label t then (match rest with [] => true | _ => false end)
    else orphan_free rest
  end.

(** The [span] nodes of [page D]. *)
Definition spans_of (D : list text) : list Tag := map (fun t => mkTag t ∅) D.

(** [not case.is_empty()] *)
Definition non_empty (c : Case) : bool := negb (is_empty c).

(** The reader of the exported table that the round-trip property speaks
    of (the program itself never reads the file back): the row without its
    line end, split at the commas, with the four numeric columns read as
    integers of any length. *)
Definition parse_row (row : text) : result Case :=
  match split comma (slice row 0 (-1)) with
  | [f1; f2; f3; f4; f5; f6] =>
    id <- int_with 0 f1 ;;
    g <- int_with 0 f2 ;;
    a <- int_with 0 f3 ;;
    cc <- int_with 0 f5 ;;
    Ok (mkCase id g cc a f4 f6)
  | _ => Raise ValueError
  end.

(** The tag carries an [href] attribute. *)
Definition has_href (a : Tag) : bool :=
  match attrs a !! "href" with
  | Some _ => true
  | None => false
  end.

(** The value of the [href] attribute. *)
Definition href (a : Tag) : text := default [] (attrs a !! "href").

(** Every bulletin link among the tags carries an [href]. *)
Definition links_ok (tags : list Tag) : bool :=
  forallb (fun a => negb (is_link (get_text a)) || has_href a) tags.

(** A function applied to a result, exceptions kept. *)
Definition rmap {A B} (f : A -> B) (r : result A) : result B :=
  x <- r ;; Ok (f x).

(** The part of the loop variables that decides the records. *)
Definition core (w : walk) : list Case * bool := (all_cases w, flag w).

(** The records of a list of pages, one call of [find_cases] per page. *)
Fixpoint gather (fetch : text -> result BeautifulSoup) (all : list Case)
  (urls : list text) : result (list Case) :=
  match urls with
  | [] => Ok all
  | url :: rest =>
    soup <- fetch url ;;
    cases <- cases_of (find_cases soup []) ;;
    gather fetch (all ++ cases) rest
  end.

(** Pages used as examples. *)
Definition bulletin : BeautifulSoup :=
  page [u "确诊病例7"; u "确诊病例3，女，61岁，现住广陵区。"; u "活动轨迹"; u "超市、菜场"].

Definition entry_page : BeautifulSoup :=
  mkSoup [mkTag (u "8月3日扬州新增确诊病例") {[ "href" := u "http://a" ]};
          mkTag (u "关于我们") {[ "href" := u "http://b" ]};
          mkTag (u "8月3日扬州通报") {[ "href" := u "http://a" ]};
          mkTag (u "8月4日扬州通报") {[ "href" := u "http://c" ]}]
         [].

Definition first_page : BeautifulSoup :=
  page [u "确诊病例3，女，61岁，现住广陵区。"; u "活动轨迹"].
Definition second_page : BeautifulSoup :=
  page [u "超市、菜场"; u "确诊病例4，男，3密接"].

(** The text is over, or goes on with something that is not a digit. *)
Definition starts_nondigit (s : text) : bool :=
  match s with
  | [] => true
  | c :: _ => negb (is_digit c)
  end.

(** The characters the patterns of the source look for. *)
Definition male : char := 30007.        (* 男 *)
Definition female : char := 22899.      (* 女 *)
Definition full_stop : char := 12290.   (* 。 *)

(** The first character of a text that is 男 or 女. *)
Definition first_gender_mark (t : text) : option char :=
  List.find (fun c => (c =? male) || (c =? female)) t.

(** The order of [list.sort(key=lambda case: case.case_id)]. *)
Definition by_id (c d : Case) : Prop := case_id c <= case_id d.

(** ** Built-ins on examples *)

Example u_ascii : u "a1," = [97; 49; 44].
Proof. reflexivity. Qed.

Example u_cjk : u "确诊。" = [30830; 35786; 12290].
Proof. reflexivity. Qed.

Example str_ex : str 120 = u "120" /\ str (-1) = u "-1" /\ str 0 = u "0".
Proof. repeat split. Qed.

Example slice_ex : slice (u "abcdef") 2 (-1) = u "cde" /\ slice (u "ab") 2 (-1) = [].
Proof. split; reflexivity. Qed.

(** ** The matcher *)

Section Matcher.

Implicit Types (a : cclass) (r : regex) (s m : text) (k : text -> option text).

Lemma consumed_Some c o m :
  consumed c o = Some m -> exists m', o = Some m' /\ m = c :: m'.
Proof. destruct o; simpl; intros H; inversion H; eauto. Qed.

Lemma orelse_Some o1 o2 m :
  orelse o1 o2 = Some m -> o1 = Some m \/ (o1 = None /\ o2 = Some m).
Proof. destruct o1; simpl; intros H; [left | right]; auto. Qed.

Lemma splits_cons (P Q : text -> Prop) c s k m :
  (forall m1, P m1 -> Q (c :: m1)) ->
  splits P s k m -> splits Q (c :: s) k (c :: m).
Proof.
  intros HPQ (m1 & m2 & s' & -> & HP & Hk & ->).
  exists (c :: m1), m2, s'. repeat split; auto.
Qed.

Lemma splits_nil (P : text -> Prop) s k m :
  P [] -> k s = Some m -> splits P s k m.
Proof. intros HP Hk. exists [], m, s. repeat split; auto. Qed.

Lemma greedy_star_sound a s k m :
  greedy_star a s k = Some m ->
  splits (fun m1 => forallb (accepts a) m1 = true) s k m.
Proof.
  revert m. induction s as [|c s IH]; simpl; intros m H.
  - apply splits_nil; auto.
  - destruct (accepts a c) eqn:Hc.
    + apply orelse_Some in H as [H | [_ H]].
      * apply consumed_Some in H as (m' & H & ->).
        eapply splits_cons; [|apply IH, H].
        intros m1 Hm1. simpl. now rewrite Hc.
      * apply splits_nil; auto.
    + apply splits_nil; auto.
Qed.

Lemma lazy_star_sound a s k m :
  lazy_star a s k = Some m ->
  splits (fun m1 => forallb (accepts a) m1 = true) s k m.
Proof.
  revert m. induction s as [|c s IH]; simpl; intros m H.
  - apply orelse_Some in H as [H | [_ H]]; [|discriminate].
    apply splits_nil; auto.
  - apply orelse_Some in H as [H | [_ H]]; [apply splits_nil; auto|].
    destruct (accepts a c) eqn:Hc; [|discriminate].
    apply consumed_Some in H as (m' & H & ->).
    eapply splits_cons; [|apply IH, H].
    intros m1 Hm1. simpl. now rewrite Hc.
Qed.

Lemma run_sound r : forall s k m,
  run r s k = Some m -> splits (matches r) s k m.
Proof.
  induction r as [|a|r1 IH1 r2 IH2|r1 IH1 r2 IH2|a|a|r IH]; simpl; intros s k m H.
  - apply splits_nil; [constructor | assumption].
  - destruct s as [|c s]; [discriminate|].
    destruct (accepts a c) eqn:Hc; [|discriminate].
    apply consumed_Some in H as (m' & H & ->).
    exists [c], m', s. repeat split; auto. now constructor.
  - apply IH1 in H as (m1 & m2 & s1 & -> & H1 & H & ->).
    apply IH2 in H as (m2' & m3 & s2 & -> & H2 & H & ->).
    exists (m1 ++ m2'), m3, s2. rewrite !app_assoc. repeat split; auto.
    now constructor.
  - apply orelse_Some in H as [H | [_ H]].
    + apply IH1 in H as (m1 & m2 & s1 & -> & H1 & H & ->).
      exists m1, m2, s1. repeat split; auto. now apply M_alt_l.
    + apply IH2 in H as (m1 & m2 & s1 & -> & H1 & H & ->).
      exists m1, m2, s1. repeat split; auto. now apply M_alt_r.
  - destruct s as [|c s]; [discriminate|].
    destruct (accepts a c) eqn:Hc; [|discriminate].
    apply consumed_Some in H as (m' & H & ->).
    apply greedy_star_sound in H.
    eapply splits_cons; [|exact H].
    intros m1 Hm1. now constructor.
  - apply lazy_star_sound in H as (m1 & m2 & s1 & -> & H1 & H & ->).
    exists m1, m2, s1. repeat split; auto. now constructor.
  - apply IH in H as (m1 & m2 & s1 & -> & H1 & H & ->).
    exists m1, m2, s1. repeat split; auto. now constructor.
Qed.

(** A match is a prefix of the text, and belongs to the pattern. *)
Lemma match_sound r s m :
  match_ r s = Some m -> matches r m /\ exists s', s = m ++ s'.
Proof.
  intros H. apply run_sound in H as (m1 & m2 & s' & -> & H1 & H & ->).
  inversion H; subst. rewrite app_nil_r. eauto.
Qed.

(** A search result is a factor of the text, and belongs to the pattern. *)
Lemma search_sound r s m :
  search r s = Some m -> matches r m /\ exists pre post, s = pre ++ m ++ post.
Proof.
  induction s as [|c s IH]; simpl; intros H.
  - destruct (match_ r []) eqn:E; [|discriminate].
    inversion H; subst. apply match_sound in E as [? [s' ->]].
    split; auto. now exists [], s'.
  - destruct (match_ r (c :: s)) eqn:E.
    + inversion H; subst. apply match_sound in E as [? [s' E]].
      split; auto. exists [], s'. now rewrite E.
    + apply IH in H as [? (pre & post & ->)].
      split; auto. now exists (c :: pre), post.
Qed.

Lemma matches_lits s m : matches (lits s) m -> m = s.
Proof.
  revert m. induction s as [|c s IH]; simpl; intros m H.
  - now inversion H.
  - inversion H as [| |r1 r2 m1 m2 H1 H2| | | | |]; subst.
    inversion H1 as [|a c' Hc| | | | | |]; subst. simpl in Hc.
    apply Z.eqb_eq in Hc. subst. simpl. f_equal. now apply IH.
Qed.

(** With nothing left to match, [a+] takes every leading [a]. *)
Lemma greedy_star_all s : greedy_star digit s accept = Some (digit_run s).
Proof.
  induction s as [|c s IH]; [reflexivity|].
  cbn [greedy_star digit_run]. unfold is_digit.
  destruct (accepts digit c); [|reflexivity].
  now rewrite IH.
Qed.

Lemma match_number s :
  match_ pat_number s =
  match s with
  | c :: _ => if is_digit c then Some (digit_run s) else None
  | [] => None
  end.
Proof.
  destruct s as [|c s]; [reflexivity|].
  unfold match_, pat_number. cbn [run digit_run]. unfold is_digit.
  destruct (accepts digit c); [|reflexivity].
  now rewrite greedy_star_all.
Qed.

(** ['[0-9]+'] finds the first run of digits. *)
Lemma search_number s :
  search pat_number s =
  match first_digit_run s with
  | [] => None
  | ds => Some ds
  end.
Proof.
  induction s as [|c s IH]; [reflexivity|].
  cbn [search]. rewrite match_number. cbn [first_digit_run].
  destruct (is_digit c) eqn:Hc.
  - cbn [digit_run]. now rewrite Hc.
  - exact IH.
Qed.

End Matcher.

(** ** Numbers *)

Section Numbers.

Implicit Types (s ds m : text) (c : char).

Lemma is_digit_range c : is_digit c = true <-> 48 <= c <= 57.
Proof. unfold is_digit, digit, accepts. lia. Qed.

Lemma digit_run_digits s : forallb is_digit (digit_run s) = true.
Proof.
  induction s as [|c s IH]; [reflexivity|].
  cbn [digit_run]. destruct (is_digit c) eqn:Hc; [|reflexivity].
  cbn [forallb]. now rewrite Hc, IH.
Qed.

Lemma first_digit_run_digits s : forallb is_digit (first_digit_run s) = true.
Proof.
  induction s as [|c s IH]; [reflexivity|].
  cbn [first_digit_run]. destruct (is_digit c); [apply digit_run_digits | exact IH].
Qed.

Lemma first_digit_run_head c s :
  is_digit c = true -> first_digit_run (c :: s) = c :: digit_run s.
Proof. intros Hc. cbn [first_digit_run digit_run]. now rewrite Hc. Qed.

Lemma fold_digits_nonneg ds : forall acc,
  forallb is_digit ds = true -> 0 <= acc ->
  0 <= fold_left (fun acc d => 10 * acc + (d - 48)) ds acc.
Proof.
  induction ds as [|d ds IH]; cbn [fold_left forallb]; intros acc H Hacc; [assumption|].
  apply andb_true_iff in H as [Hd H]. apply is_digit_range in Hd.
  apply IH; [assumption | lia].
Qed.

Lemma int_of_digits_nonneg ds :
  forallb is_digit ds = true -> 0 <= int_of_digits ds.
Proof. intros H. apply fold_digits_nonneg; [assumption | lia]. Qed.

(** The positional value of a run is what the left-to-right reading
    computes. *)
Lemma fold_digits_decimal ds : forall acc,
  fold_left (fun acc d => 10 * acc + (d - 48)) ds acc =
  acc * 10 ^ Z.of_nat (length ds) + decimal ds.
Proof.
  induction ds as [|d ds IH]; intros acc; cbn [fold_left decimal length].
  - change (10 ^ Z.of_nat 0) with 1. lia.
  - rewrite IH. rewrite Nat2Z.inj_succ, Z.pow_succ_r by lia. ring.
Qed.

Lemma int_of_digits_decimal ds : int_of_digits ds = decimal ds.
Proof. unfold int_of_digits. rewrite fold_digits_decimal. lia. Qed.

(** [int_with] on a non-empty run of digits: only the limit can refuse
    it. *)
Lemma int_with_digits max_digits ds :
  ds <> [] -> forallb is_digit ds = true ->
  int_with max_digits ds =
  if (0 <? max_digits)%nat && (max_digits <? length ds)%nat
  then Raise ValueError
  else Ok (int_of_digits ds).
Proof.
  intros Hne H. destruct ds as [|c ds]; [congruence|].
  unfold int_with. pose proof H as H'. cbn [forallb] in H'.
  apply andb_true_iff in H' as [Hc _]. apply is_digit_range in Hc.
  destruct (c =? 45) eqn:E1; [lia|].
  destruct (c =? 43) eqn:E2; [lia|].
  now rewrite H.
Qed.

Lemma int_digits ds :
  ds <> [] -> forallb is_digit ds = true ->
  int ds = if within_limit ds then Ok (int_of_digits ds) else Raise ValueError.
Proof.
  intros Hne H. unfold int. rewrite int_with_digits by assumption.
  unfold within_limit, int_max_str_digits.
  destruct (length ds <=? 4300)%nat eqn:E.
  - apply Nat.leb_le in E.
    destruct (4300 <? length ds)%nat eqn:E'; [apply Nat.ltb_lt in E'; lia|].
    reflexivity.
  - apply Nat.leb_gt in E.
    destruct (4300 <? length ds)%nat eqn:E'; [reflexivity|].
    apply Nat.ltb_ge in E'. lia.
Qed.

(** [extract_number] on a text with a digit, and on one without. *)
Lemma extract_number_digits s :
  first_digit_run s <> [] ->
  extract_number s 0 =
  if within_limit (first_digit_run s)
  then Ok (int_of_digits (first_digit_run s))
  else Raise ValueError.
Proof.
  intros Hne. unfold extract_number. rewrite search_number.
  destruct (first_digit_run s) as [|d ds] eqn:E; [congruence|].
  cbn [subscript bind]. rewrite Z.eqb_refl. rewrite <- E in *.
  apply int_digits; [assumption | apply first_digit_run_digits].
Qed.

Lemma extract_number_none s :
  first_digit_run s = [] -> extract_number s 0 = Raise TypeError.
Proof. intros E. unfold extract_number. now rewrite search_number, E. Qed.

(** A text matched by [[0-9]+...] starts with a digit. *)
Lemma matches_plus_head a r m :
  matches (Seq (Plus a) r) m -> exists c m', m = c :: m' /\ accepts a c = true.
Proof.
  intros H. inversion H as [| |r1 r2 m1 m2 H1 H2| | | | |]; subst.
  inversion H1; subst. simpl. eauto.
Qed.

Lemma extract_number_matched r s m :
  search (Seq (Plus digit) r) s = Some m ->
  first_digit_run m <> [] /\
  extract_number m 0 =
  if within_limit (first_digit_run m)
  then Ok (int_of_digits (first_digit_run m))
  else Raise ValueError.
Proof.
  intros H. apply search_sound in H as [H _].
  apply matches_plus_head in H as (c & m' & -> & Hc).
  assert (Hne : first_digit_run (c :: m') <> []).
  { rewrite first_digit_run_head by exact Hc. discriminate. }
  split; [assumption | now apply extract_number_digits].
Qed.

Lemma matches_lits_plus p a m :
  matches (Seq (lits p) (Plus a)) m ->
  exists c m', m = p ++ c :: m' /\ accepts a c = true.
Proof.
  intros H. inversion H as [| |r1 r2 m1 m2 H1 H2| | | | |]; subst.
  apply matches_lits in H1 as ->.
  inversion H2; subst. eauto.
Qed.

(** The shape of a paragraph that opens a case. *)
Lemma is_case_shape t :
  is_case t = true ->
  exists d rest, t = u "确诊病例" ++ d :: rest /\ is_digit d = true.
Proof.
  unfold is_case. destruct (match_ pat_case t) as [m|] eqn:E; [|discriminate].
  intros _. apply match_sound in E as [H [s' ->]].
  apply matches_lits_plus in H as (c & m' & -> & Hc).
  rewrite <- app_assoc. simpl app at 2. eauto.
Qed.

Lemma first_digit_run_skip pre s :
  forallb (fun c => negb (is_digit c)) pre = true ->
  first_digit_run (pre ++ s) = first_digit_run s.
Proof.
  induction pre as [|c pre IH]; [reflexivity|].
  cbn [forallb app first_digit_run]. intros H.
  apply andb_true_iff in H as [Hc H].
  apply negb_true_iff in Hc. rewrite Hc. now apply IH.
Qed.

Lemma is_case_digits t :
  is_case t = true -> first_digit_run t <> [].
Proof.
  intros H. apply is_case_shape in H as (d & rest & -> & Hd).
  rewrite first_digit_run_skip by reflexivity.
  rewrite first_digit_run_head by exact Hd. discriminate.
Qed.

End Numbers.

(** ** One paragraph *)

Section Paragraph.

Implicit Types (t : text) (e : list text).

Lemma dbg_print_line s level e : dbg_print s level e = e ++ [dbg_line s level].
Proof. reflexivity. Qed.

Ltac read_case_branch :=
  unfold Case_init;
  cbn [bind found with_case_id with_gender with_close_contact_id with_age
       with_address case_id gender close_contact_id age address trace];
  rewrite ?dbg_print_line;
  cbn [app]; rewrite ?app_nil_r, <- ?app_assoc; reflexivity.

(** On a paragraph that opens a case, [read_case] raises only when [int]
    refuses a run of digits; otherwise each field comes from its own
    search. *)
Lemma read_case_eq t e :
  is_case t = true ->
  read_case t e =
  if ints_readable t then Ok (record_of t, e ++ warnings t) else Raise ValueError.
Proof.
  intros Hc. apply is_case_digits in Hc.
  unfold read_case, ints_readable, record_of, warnings,
    field_close_contact, field_gender, field_age, field_address.
  rewrite (extract_number_digits _ Hc).
  destruct (within_limit (first_digit_run t)); [|reflexivity].
  cbn [bind andb].
  destruct (search pat_close_contact t) as [mc|] eqn:Ecc;
    [apply extract_number_matched in Ecc as [_ ->];
     destruct (within_limit (first_digit_run mc)); [|reflexivity]|];
    cbn [bind andb];
    (destruct (search pat_gender t) as [mg|] eqn:Eg;
      [destruct (bool_decide (mg = u "男"))|]);
    (destruct (search pat_age t) as [ma|] eqn:Ea;
      [apply extract_number_matched in Ea as [_ ->];
       destruct (within_limit (first_digit_run ma)); [|reflexivity]|]);
    destruct (search pat_address t) as [md|] eqn:Ed;
    read_case_branch.
Qed.


Lemma not_case_readable t : is_case t = false -> unreadable t = false.
Proof. intros H. unfold unreadable. now rewrite H. Qed.

Lemma readable_case t :
  is_case t = true -> ints_readable t = true -> unreadable t = false.
Proof. intros Hc Hr. unfold unreadable. now rewrite Hc, Hr. Qed.

Lemma set_last_trace_nil t : set_last_trace [] t = Raise IndexError.
Proof. reflexivity. Qed.

Lemma set_last_trace_snoc (l : list Case) c t :
  set_last_trace (l ++ [c]) t = Ok (l ++ [with_trace t c]).
Proof.
  unfold set_last_trace. rewrite length_app. cbn [length].
  replace (length l + 1 - 1)%nat with (length l + 0)%nat by lia.
  rewrite lookup_app_r by lia.
  replace (length l + 0 - length l)%nat with 0%nat by lia. cbn.
  rewrite insert_app_r. reflexivity.
Qed.

(** One iteration, with the paragraph reader replaced by its result. *)
Lemma span_step_any w span :
  let t := get_text span in
  span_step w span =
  (cases1 <- (if flag w then set_last_trace (all_cases w) t else Ok (all_cases w)) ;;
   if unreadable t then Raise ValueError
   else
   Ok (mkWalk (if is_case t then cases1 ++ [record_of t] else cases1)
              (dbg_cnt w + 1)
              (if is_case t then dbg_found_cnt w + 1 else dbg_found_cnt w)
              (is_label t)
              (if is_case t then stderr w ++ warnings t else stderr w))).
Proof.
  intros t. unfold span_step, unreadable. fold t. fold (is_case t) (is_label t).
  destruct (if flag w then set_last_trace (all_cases w) t
            else Ok (all_cases w)) as [cases1|x] eqn:E.
  - assert (E' : (if flag w
                  then cases <- set_last_trace (all_cases w) t ;; Ok (cases, false)
                  else Ok (all_cases w, flag w)) = Ok (cases1, false)).
    { destruct (flag w); [now rewrite E | now inversion E]. }
    rewrite E'. cbn [bind]. destruct (is_case t) eqn:Hc.
    + rewrite read_case_eq by exact Hc.
      destruct (ints_readable t); cbn [bind andb negb]; [|reflexivity].
      now destruct (is_label t).
    + cbn [bind andb]. now destruct (is_label t).
  - destruct (flag w); [|discriminate]. now rewrite E.
Qed.

(** The same, on a node whose numbers [int] accepts. *)
Lemma span_step_eq w span :
  unreadable (get_text span) = false ->
  let t := get_text span in
  span_step w span =
  (cases1 <- (if flag w then set_last_trace (all_cases w) t else Ok (all_cases w)) ;;
   Ok (mkWalk (if is_case t then cases1 ++ [record_of t] else cases1)
              (dbg_cnt w + 1)
              (if is_case t then dbg_found_cnt w + 1 else dbg_found_cnt w)
              (is_label t)
              (if is_case t then stderr w ++ warnings t else stderr w))).
Proof. intros Hr. cbv zeta. rewrite span_step_any. cbv zeta. now rewrite Hr. Qed.

End Paragraph.

(** ** The walk over the paragraphs *)

Section Walk.

Implicit Types (w : walk) (t : text) (D : list text) (spans : list Tag).

Lemma walk_spans_app spans1 spans2 w :
  walk_spans w (spans1 ++ spans2) =
  (w1 <- walk_spans w spans1 ;; walk_spans w1 spans2).
Proof.
  revert w. induction spans1 as [|sp spans1 IH]; intros w; [reflexivity|].
  cbn [app walk_spans]. destruct (span_step w sp); cbn [bind]; [apply IH | reflexivity].
Qed.

Lemma texts_spans_of D : map get_text (spans_of D) = D.
Proof.
  unfold spans_of. induction D as [|t D IH]; [reflexivity|].
  cbn [map get_text]. now rewrite IH.
Qed.

Lemma erase_with_trace t c : with_trace [] (with_trace t c) = with_trace [] c.
Proof. reflexivity. Qed.

Lemma erase_record_of t : with_trace [] (record_of t) = record_of t.
Proof. reflexivity. Qed.

(** A label does not open a case. *)
Lemma label_not_case t : is_label t = true -> is_case t = false.
Proof.
  intros Hl. destruct (is_case t) eqn:Hc; [|reflexivity].
  apply is_case_shape in Hc as (d & rest & -> & _).
  discriminate Hl.
Qed.

(** Once a record exists, an iteration fails only on a number too long
    for [int]. *)
Lemma span_step_records w span :
  all_cases w <> [] ->
  unreadable (get_text span) = false ->
  exists w', span_step w span = Ok w' /\ all_cases w' <> [] /\
    flag w' = is_label (get_text span) /\
    map (with_trace []) (all_cases w') =
    map (with_trace []) (all_cases w) ++
    map record_of (List.filter is_case [get_text span]).
Proof.
  intros Hne Hr. rewrite span_step_eq by exact Hr. set (t := get_text span).
  assert (Hs : exists cases1,
    (if flag w then set_last_trace (all_cases w) t else Ok (all_cases w)) = Ok cases1 /\
    cases1 <> [] /\
    map (with_trace []) cases1 = map (with_trace []) (all_cases w)).
  { destruct (flag w); [|eauto].
    destruct (all_cases w) as [|c0 l0] using rev_ind; [congruence|].
    rewrite set_last_trace_snoc. eexists; split; [reflexivity|]. split.
    - intros E. apply app_eq_nil in E as [_ E]. discriminate.
    - now rewrite !map_app. }
  destruct Hs as (cases1 & -> & Hne1 & Hmap). cbn [bind].
  eexists; split; [reflexivity|]. cbn [all_cases flag List.filter].
  destruct (is_case t); cbn [map].
  - rewrite map_app, Hmap. cbn [map]. repeat split; auto.
    intros E. apply app_eq_nil in E as [_ E]. discriminate.
  - rewrite app_nil_r. auto.
Qed.

Lemma span_step_unreadable w span :
  all_cases w <> [] \/ flag w = false ->
  unreadable (get_text span) = true ->
  span_step w span = Raise ValueError.
Proof.
  intros Hw Hu. rewrite span_step_any. cbv zeta. rewrite Hu.
  destruct (flag w) eqn:Hf; [|reflexivity].
  destruct Hw as [Hne|]; [|discriminate].
  destruct (all_cases w) as [|c0 l0] using rev_ind; [congruence|].
  now rewrite set_last_trace_snoc.
Qed.

Lemma walk_spans_records spans : forall w,
  all_cases w <> [] ->
  readable_page (map get_text spans) = true ->
  exists w', walk_spans w spans = Ok w' /\ all_cases w' <> [] /\
    map (with_trace []) (all_cases w') =
    map (with_trace []) (all_cases w) ++
    map record_of (List.filter is_case (map get_text spans)).
Proof.
  induction spans as [|sp spans IH]; intros w Hne Hr.
  - exists w. cbn. rewrite app_nil_r. auto.
  - cbn [map readable_page forallb] in Hr.
    apply andb_true_iff in Hr as [Hr1 Hr]. apply negb_true_iff in Hr1.
    destruct (span_step_records w sp Hne Hr1) as (w1 & E1 & Hne1 & _ & Hmap1).
    destruct (IH w1 Hne1 Hr) as (w2 & E2 & Hne2 & Hmap2).
    exists w2. cbn [walk_spans]. rewrite E1. cbn [bind]. repeat split; auto.
    rewrite Hmap2, Hmap1. cbn [map List.filter].
    destruct (is_case (get_text sp)); cbn [map app];
      rewrite <- ?app_assoc; cbn [app]; rewrite ?app_nil_r; reflexivity.
Qed.

(** With a record at hand, a number too long for [int] stops the walk
    with a value error. *)
Lemma walk_spans_records_unreadable spans : forall w,
  all_cases w <> [] ->
  readable_page (map get_text spans) = false ->
  walk_spans w spans = Raise ValueError.
Proof.
  induction spans as [|sp spans IH]; intros w Hne Hr; [discriminate|].
  cbn [map readable_page forallb] in Hr. cbn [walk_spans].
  destruct (unreadable (get_text sp)) eqn:Hu.
  - rewrite span_step_unreadable; auto.
  - cbn [negb andb] in Hr.
    destruct (span_step_records w sp Hne Hu) as (w1 & E1 & Hne1 & _).
    rewrite E1. cbn [bind]. now apply IH.
Qed.

(** From the start of a page without an orphan label and without a number
    too long, the walk succeeds and yields the records of the opening
    paragraphs, in order. *)
Lemma walk_spans_start spans : forall w,
  all_cases w = [] -> flag w = false ->
  orphan_free (map get_text spans) = true ->
  readable_page (map get_text spans) = true ->
  exists w', walk_spans w spans = Ok w' /\
    map (with_trace []) (all_cases w') =
    map record_of (List.filter is_case (map get_text spans)).
Proof.
  induction spans as [|sp spans IH]; intros w Hnil Hflag Hfree Hr.
  - exists w. cbn. now rewrite Hnil.
  - cbn [map readable_page forallb] in Hr.
    apply andb_true_iff in Hr as [Hr1 Hr]. apply negb_true_iff in Hr1.
    cbn [map orphan_free List.filter] in *. cbn [walk_spans].
    rewrite span_step_eq by exact Hr1. rewrite Hflag, Hnil. cbn [bind].
    destruct (is_case (get_text sp)) eqn:Hc.
    + match goal with |- context [walk_spans ?w1 spans] => set (w1' := w1) end.
      destruct (walk_spans_records spans w1') as (w2 & E2 & _ & Hmap);
        [discriminate | exact Hr |].
      exists w2. split; [assumption|]. rewrite Hmap. reflexivity.
    + destruct (is_label (get_text sp)) eqn:Hl.
      * destruct spans; [|discriminate]. eexists. cbn. split; reflexivity.
      * cbn [bind]. apply IH; auto.
Qed.

(** On such a page with a number too long, the walk stops with a value
    error. *)
Lemma walk_spans_start_unreadable spans : forall w,
  all_cases w = [] -> flag w = false ->
  orphan_free (map get_text spans) = true ->
  readable_page (map get_text spans) = false ->
  walk_spans w spans = Raise ValueError.
Proof.
  induction spans as [|sp spans IH]; intros w Hnil Hflag Hfree Hr; [discriminate|].
  cbn [map readable_page forallb] in Hr.
  cbn [map orphan_free] in Hfree. cbn [walk_spans].
  destruct (unreadable (get_text sp)) eqn:Hu.
  - rewrite span_step_unreadable; auto.
  - cbn [negb andb] in Hr.
    rewrite span_step_eq by exact Hu. rewrite Hflag, Hnil. cbn [bind].
    destruct (is_case (get_text sp)) eqn:Hc.
    + apply walk_spans_records_unreadable; [discriminate | exact Hr].
    + destruct (is_label (get_text sp)) eqn:Hl.
      * destruct spans; [discriminate Hr | discriminate Hfree].
      * apply IH; auto.
Qed.

(** On any other page the walk stops with an index error. *)
Lemma walk_spans_orphan spans : forall w,
  all_cases w = [] -> flag w = false ->
  orphan_free (map get_text spans) = false ->
  walk_spans w spans = Raise IndexError.
Proof.
  induction spans as [|sp spans IH]; intros w Hnil Hflag Hfree.
  - discriminate.
  - cbn [map orphan_free] in Hfree. cbn [walk_spans].
    destruct (is_case (get_text sp)) eqn:Hc; [discriminate|].
    rewrite span_step_eq by (now apply not_case_readable).
    rewrite Hflag, Hnil, Hc. cbn [bind].
    destruct (is_label (get_text sp)) eqn:Hl.
    + destruct spans as [|sp' spans]; [discriminate|].
      cbn [bind walk_spans]. rewrite span_step_any. reflexivity.
    + apply IH; auto.
Qed.

(** While no paragraph opens a case, the list of records stays empty. *)
Lemma walk_spans_no_case spans : forall w w',
  all_cases w = [] ->
  forallb (fun sp => negb (is_case (get_text sp))) spans = true ->
  walk_spans w spans = Ok w' -> all_cases w' = [].
Proof.
  induction spans as [|sp spans IH]; intros w w' Hnil Hno H.
  - cbn in H. now inversion H; subst.
  - cbn [forallb] in Hno. apply andb_true_iff in Hno as [Hc Hno].
    apply negb_true_iff in Hc.
    cbn [walk_spans] in H.
    rewrite span_step_eq in H by (now apply not_case_readable).
    rewrite Hnil, Hc in H.
    destruct (flag w); [discriminate|]. cbn [bind] in H.
    eapply IH; [| exact Hno | exact H]. reflexivity.
Qed.

Lemma orphan_free_label pre lab next post :
  forallb (fun t => negb (is_case t)) pre = true ->
  is_label lab = true ->
  orphan_free (pre ++ lab :: next :: post) = false.
Proof.
  intros Hpre Hl. induction pre as [|t pre IH]; cbn [app orphan_free].
  - now rewrite (label_not_case _ Hl), Hl.
  - cbn [forallb] in Hpre. apply andb_true_iff in Hpre as [Hc Hpre].
    apply negb_true_iff in Hc. rewrite Hc.
    destruct (is_label t); [|now apply IH].
    now destruct pre.
Qed.

End Walk.

(** ** Rendering and reading integers *)

Section Rendering.

Implicit Types (n : Z) (ds w acc : text).

Lemma int_of_digits_snoc ds d :
  int_of_digits (ds ++ [d]) = 10 * int_of_digits ds + (d - 48).
Proof. unfold int_of_digits. now rewrite fold_left_app. Qed.

Lemma forallb_snoc {A} (f : A -> bool) (l : list A) x :
  forallb f (l ++ [x]) = forallb f l && f x.
Proof. rewrite forallb_app. cbn. now rewrite andb_true_r. Qed.

Lemma digits_of_S fuel n acc :
  digits_of (S fuel) n acc =
  if n <? 10 then (48 + n mod 10) :: acc
  else digits_of fuel (n / 10) ((48 + n mod 10) :: acc).
Proof. reflexivity. Qed.

Lemma digits_of_spec fuel : forall n acc,
  0 <= n < 10 ^ Z.of_nat (S fuel) ->
  exists ds, digits_of (S fuel) n acc = ds ++ acc /\ ds <> [] /\
    forallb is_digit ds = true /\ int_of_digits ds = n.
Proof.
  induction fuel as [|fuel IH]; intros n acc Hn.
  - change (10 ^ Z.of_nat 1) with 10 in Hn.
    exists [48 + n mod 10]. rewrite digits_of_S.
    destruct (n <? 10) eqn:E; [|lia].
    rewrite Z.mod_small by lia. repeat split; [discriminate | |].
    + cbn. apply andb_true_iff. split; [apply is_digit_range; lia | reflexivity].
    + unfold int_of_digits. cbn. lia.
  - rewrite digits_of_S. destruct (n <? 10) eqn:E.
    + exists [48 + n mod 10]. rewrite Z.mod_small by lia.
      repeat split; [discriminate | |].
      * cbn. apply andb_true_iff. split; [apply is_digit_range; lia | reflexivity].
      * unfold int_of_digits. cbn. lia.
    + assert (Hq : 0 <= n / 10 < 10 ^ Z.of_nat (S fuel)).
      { split; [apply Z.div_pos; lia|].
        apply Z.div_lt_upper_bound; [lia|].
        replace (Z.of_nat (S (S fuel))) with (Z.succ (Z.of_nat (S fuel))) in Hn by lia.
        rewrite Z.pow_succ_r in Hn by lia. lia. }
      destruct (IH (n / 10) ((48 + n mod 10) :: acc) Hq) as (ds & E1 & _ & Hd & Hv).
      exists (ds ++ [48 + n mod 10]). rewrite E1, <- app_assoc.
      repeat split.
      * intros X. apply app_eq_nil in X as [_ X]. discriminate.
      * rewrite forallb_snoc, Hd. cbn [andb].
        apply is_digit_range. pose proof (Z.mod_pos_bound n 10). lia.
      * rewrite int_of_digits_snoc, Hv.
        pose proof (Z.div_mod n 10). lia.
Qed.

Lemma fuel_enough n : 0 <= n -> n < 10 ^ Z.of_nat (S (Z.to_nat (Z.log2 n))).
Proof.
  intros Hn. pose proof (Z.log2_nonneg n) as Hl.
  replace (Z.of_nat (S (Z.to_nat (Z.log2 n)))) with (Z.succ (Z.log2 n)) by lia.
  destruct (Z.eq_dec n 0) as [->|Hz]; [reflexivity|].
  assert (Hp : 0 < n) by lia.
  pose proof (Z.log2_spec n Hp) as [_ Hlt].
  eapply Z.lt_le_trans; [exact Hlt|].
  apply Z.pow_le_mono_l. lia.
Qed.

(** [str] of a non-negative integer is a non-empty run of digits that
    reads back as the integer; a negative one gets a minus sign in front. *)
Lemma str_shape n :
  exists ds, ds <> [] /\ forallb is_digit ds = true /\
    int_of_digits ds = Z.abs n /\
    str n = if n <? 0 then 45 :: ds else ds.
Proof.
  unfold str. destruct (n <? 0) eqn:E.
  - destruct (digits_of_spec (Z.to_nat (Z.log2 (- n))) (- n) [])
      as (ds & E1 & Hne & Hd & Hv); [split; [lia | apply fuel_enough; lia]|].
    exists ds. rewrite E1, app_nil_r. repeat split; auto. lia.
  - destruct (digits_of_spec (Z.to_nat (Z.log2 n)) n [])
      as (ds & E1 & Hne & Hd & Hv); [split; [lia | apply fuel_enough; lia]|].
    exists ds. rewrite E1, app_nil_r. repeat split; auto. lia.
Qed.

(** Reading a rendered integer, with the limit on digits switched off,
    gives the integer back. *)
Lemma int_str n : int_with 0 (str n) = Ok n.
Proof.
  destruct (str_shape n) as (ds & Hne & Hd & Hv & ->).
  destruct (n <? 0) eqn:E.
  - unfold int_with. rewrite Z.eqb_refl.
    destruct ds as [|d ds]; [congruence|]. rewrite Hd. cbn [Nat.ltb Nat.leb andb bind].
    f_equal. lia.
  - rewrite int_with_digits by assumption. cbn [Nat.ltb Nat.leb andb].
    f_equal. lia.
Qed.

Lemma digits_no_comma ds : forallb is_digit ds = true -> ~ In comma ds.
Proof.
  intros H Hin. rewrite forallb_forall in H. apply H in Hin.
  discriminate Hin.
Qed.

Lemma str_no_comma n : ~ In comma (str n).
Proof.
  destruct (str_shape n) as (ds & _ & Hd & _ & ->).
  apply digits_no_comma in Hd.
  destruct (n <? 0); [|assumption].
  intros [X|X]; [discriminate X | contradiction].
Qed.

Lemma split_none sep w : ~ In sep w -> split sep w = [w].
Proof.
  induction w as [|c w IH]; intros H; [reflexivity|].
  cbn [split]. destruct (c =? sep) eqn:E.
  - apply Z.eqb_eq in E. subst. exfalso. apply H. now left.
  - rewrite IH; [reflexivity|]. intros X. apply H. now right.
Qed.

Lemma split_field sep w rest :
  ~ In sep w -> split sep (w ++ sep :: rest) = w :: split sep rest.
Proof.
  induction w as [|c w IH]; intros H.
  - cbn [app split]. now rewrite Z.eqb_refl.
  - cbn [app split]. destruct (c =? sep) eqn:E.
    + apply Z.eqb_eq in E. subst. exfalso. apply H. now left.
    + rewrite IH; [reflexivity|]. intros X. apply H. now right.
Qed.

Lemma slice_drop_last (x : text) c : slice (x ++ [c]) 0 (-1) = x.
Proof.
  unfold slice. rewrite length_app. cbn [length].
  cbn [Z.ltb Z.compare].
  replace (Z.max 0 (Z.min (Z.of_nat (length x + 1)) 0)) with 0 by lia.
  replace (Z.max 0 (Z.min (Z.of_nat (length x + 1)) (-1 + Z.of_nat (length x + 1))))
    with (Z.of_nat (length x)) by lia.
  rewrite Z.sub_0_r, Nat2Z.id. change (Z.to_nat 0) with 0%nat.
  rewrite drop_0. apply take_app_length.
Qed.

End Rendering.

(** ** Output *)

Section Output.

Lemma is_empty_iff c :
  is_empty c = true <->
  gender c = -1 /\ close_contact_id c = -1 /\ age c = -1 /\
  address c = [] /\ trace c = [].
Proof.
  unfold is_empty. rewrite !andb_true_iff, !Z.eqb_eq, !bool_decide_eq_true.
  tauto.
Qed.

Lemma report_filter all : forall out,
  report all out =
  out ++ map (fun c => Case_str c ++ [newline]) (List.filter non_empty all).
Proof.
  unfold report. induction all as [|c all IH]; intros out.
  - cbn. now rewrite app_nil_r.
  - cbn [fold_left List.filter]. fold (non_empty c). rewrite IH.
    destruct (non_empty c); [|reflexivity].
    unfold print. now rewrite <- app_assoc.
Qed.

Lemma export_loop all : forall file,
  fold_left (fun file case =>
               if negb (is_empty case) then file ++ [csv case] else file)
            all file =
  file ++ map csv (List.filter non_empty all).
Proof.
  induction all as [|c all IH]; intros file.
  - cbn. now rewrite app_nil_r.
  - cbn [fold_left List.filter]. fold (non_empty c). rewrite IH.
    destruct (non_empty c); [|reflexivity].
    now rewrite <- app_assoc.
Qed.

Lemma export_filter all :
  export all = header :: map csv (List.filter non_empty all).
Proof. unfold export. now rewrite export_loop. Qed.

Lemma insert_by_id_perm c l : Permutation (insert_by_id c l) (c :: l).
Proof.
  induction l as [|d l IH]; [reflexivity|].
  cbn [insert_by_id]. destruct (case_id c <=? case_id d); [reflexivity|].
  rewrite IH. apply perm_swap.
Qed.

Lemma sort_by_id_perm l : Permutation (sort_by_id l) l.
Proof.
  induction l as [|c l IH]; [reflexivity|].
  cbn [sort_by_id fold_right]. fold (sort_by_id l).
  rewrite insert_by_id_perm. now constructor.
Qed.

Lemma fold_append {A} (xs acc : list A) :
  fold_left (fun all x => all ++ [x]) xs acc = acc ++ xs.
Proof.
  revert acc. induction xs as [|x xs IH]; intros acc; cbn [fold_left].
  - now rewrite app_nil_r.
  - rewrite IH, <- app_assoc. reflexivity.
Qed.

Lemma getitem_href a :
  getitem a "href" = if has_href a then Ok (href a) else Raise KeyError.
Proof. unfold getitem, has_href, href. now destruct (attrs a !! "href"). Qed.

(** The link loop: every matching [a] contributes its [href], in order;
    the first one without the attribute raises. *)
Lemma collect_links_eq tags : forall acc,
  collect_links acc tags =
  if links_ok tags
  then Ok (acc ++ map href (List.filter (fun a => is_link (get_text a)) tags))
  else Raise KeyError.
Proof.
  induction tags as [|a tags IH]; intros acc.
  - cbn. now rewrite app_nil_r.
  - cbn [collect_links links_ok forallb List.filter].
    fold (is_link (get_text a)). fold (links_ok tags).
    destruct (is_link (get_text a)) eqn:Hl; cbn [negb orb bind].
    + rewrite getitem_href.
      destruct (has_href a); cbn [bind andb]; [|reflexivity].
      rewrite IH. destruct (links_ok tags); [|reflexivity].
      cbn [map]. now rewrite <- app_assoc.
    + cbn [andb]. apply IH.
Qed.

End Output.

(** ** The diagnostics do not influence the records *)

Section Independence.

Lemma span_step_core w1 w2 span :
  core w1 = core w2 ->
  rmap core (span_step w1 span) = rmap core (span_step w2 span).
Proof.
  unfold core. intros E. inversion E as [[E1 E2]].
  rewrite !span_step_any. cbv zeta. rewrite E1, E2.
  destruct (if flag w2 then set_last_trace (all_cases w2) (get_text span)
            else Ok (all_cases w2)); [|reflexivity].
  cbn [bind]. destruct (unreadable (get_text span)); reflexivity.
Qed.

Lemma walk_spans_core spans : forall w1 w2,
  core w1 = core w2 ->
  rmap core (walk_spans w1 spans) = rmap core (walk_spans w2 spans).
Proof.
  induction spans as [|sp spans IH]; intros w1 w2 E.
  - cbn. now rewrite E.
  - cbn [walk_spans]. pose proof (span_step_core w1 w2 sp E) as Hs.
    destruct (span_step w1 sp) as [w1'|x1], (span_step w2 sp) as [w2'|x2];
      unfold rmap in Hs; cbn [bind] in Hs; try discriminate.
    + cbn [bind]. apply IH. congruence.
    + cbn [bind]. unfold rmap. cbn [bind]. congruence.
Qed.

Lemma cases_of_find_cases soup e :
  cases_of (find_cases soup e) =
  rmap all_cases (walk_spans (walk_init e) (find_all_span soup)).
Proof.
  unfold cases_of, find_cases, rmap.
  destruct (walk_spans (walk_init e) (find_all_span soup)); reflexivity.
Qed.

(** The records [find_cases] returns do not depend on what was written to
    the diagnostic stream before. *)
Lemma find_cases_stderr soup e1 e2 :
  cases_of (find_cases soup e1) = cases_of (find_cases soup e2).
Proof.
  rewrite !cases_of_find_cases.
  pose proof (walk_spans_core (find_all_span soup) (walk_init e1) (walk_init e2) eq_refl) as H.
  destruct (walk_spans (walk_init e1) (find_all_span soup)) as [w1|x1],
           (walk_spans (walk_init e2) (find_all_span soup)) as [w2|x2];
    cbn in H |- *; try discriminate; inversion H; congruence.
Qed.

End Independence.

Lemma visit_gather fetch urls : forall all e,
  cases_of (visit fetch all e urls) = gather fetch all urls.
Proof.
  induction urls as [|url urls IH]; intros all e; [reflexivity|].
  cbn [visit gather]. unfold create_soup.
  destruct (fetch url) as [soup|x]; [|reflexivity]. cbn [bind].
  match goal with |- context [find_cases soup ?e'] =>
    rewrite (find_cases_stderr soup [] e');
    destruct (find_cases soup e') as [[cases e3]|x] end; [|reflexivity].
  cbn [bind cases_of fst]. rewrite fold_append. apply IH.
Qed.

(** ** Properties of the extraction *)

(** C1.  The paragraph "确诊病例12，男，45岁，3密接，现住扬州市邗江区。"
    yields a single record with identifier 12, gender male (0), age 45,
    close contact 3 and home address "扬州市邗江区": the address search
    matches "现住扬州市邗江区。", from which the two marker characters and
    the final full stop are cut. *)
Theorem example_full_record :
  let t := u "确诊病例12，男，45岁，3密接，现住扬州市邗江区。" in
  extract [t] = Ok [mkCase 12 0 3 45 (u "扬州市邗江区") []] /\
  search pat_address t = Some (u "现住扬州市邗江区。") /\
  slice (u "现住扬州市邗江区。") 2 (-1) = u "扬州市邗江区".
Proof. vm_compute. repeat split. Qed.

(** C2, as the program has it.  When a node is processed with the flag set
    and a record exists, the node's text becomes the activity trace of the
    record that was last before the node, and the flag is cleared: after
    the node it is set only if the node itself is an activity-trace label.
    The test for a case opening runs on the same node afterwards, so a node
    that opens a case is both stored as the trace of the earlier record and
    turned into a new record, appended after it.  The one exception is a
    node that opens a case with a number of more than 4300 digits: there
    [int] raises a value error after the trace was assigned, and the
    iteration does not end. *)
Theorem trace_assignment_step w span old c :
  flag w = true ->
  all_cases w = old ++ [c] ->
  let t := get_text span in
  if unreadable t
  then span_step w span = Raise ValueError
  else
    exists w',
      span_step w span = Ok w' /\
      flag w' = is_label t /\
      all_cases w' =
      (old ++ [with_trace t c]) ++ (if is_case t then [record_of t] else []).
Proof.
  intros Hf Hc t. rewrite span_step_any. fold t.
  rewrite Hf, Hc, set_last_trace_snoc. cbn [bind].
  destruct (unreadable t); [reflexivity|].
  eexists. split; [reflexivity|]. cbn [flag all_cases]. split; [reflexivity|].
  destruct (is_case t); [reflexivity | now rewrite app_nil_r].
Qed.

Lemma trace_assignment_step_witness :
  let w := mkWalk [record_of (u "确诊病例1")] 2 1 true [] in
  let span := mkTag (u "确诊病例2，男") ∅ in
  flag w = true /\ all_cases w = [] ++ [record_of (u "确诊病例1")] /\
  unreadable (get_text span) = false /\
  if unreadable (get_text span)
  then span_step w span = Raise ValueError
  else
    exists w',
      span_step w span = Ok w' /\
      flag w' = is_label (get_text span) /\
      all_cases w' =
      ([] ++ [with_trace (get_text span) (record_of (u "确诊病例1"))]) ++
      (if is_case (get_text span) then [record_of (get_text span)] else []).
Proof.
  intros w span. split; [reflexivity|]. split; [reflexivity|].
  split; [reflexivity|].
  apply (trace_assignment_step w span [] (record_of (u "确诊病例1")));
    reflexivity.
Defined.

(** C2, as stated, fails: on the page "确诊病例1", "活动轨迹",
    "确诊病例2，男" the third node is reached with the flag set and
    opens a case; its text is stored as the trace of record 1 and record 2
    is created from it as well. *)
Lemma trace_and_case_on_one_node :
  let t := u "确诊病例2，男" in
  let c1 := mkCase 1 (-1) (-1) (-1) [] [] in
  rmap core (walk_spans (walk_init []) (spans_of [u "确诊病例1"; u "活动轨迹"])) =
    Ok ([c1], true) /\
  is_case t = true /\
  extract [u "确诊病例1"; u "活动轨迹"; t] =
    Ok [with_trace t c1; mkCase 2 0 (-1) (-1) [] []].
Proof. vm_compute. repeat split. Qed.

(** C3, as the program has it.  On every page without an activity-trace
    label that is followed by a further node before the first case opening,
    and on which no node that opens a case hands [int] a run of more than
    4300 digits, extraction returns one record per node that opens a case,
    in document order: with the activity traces put aside, the returned
    list is the list of the records of those nodes. *)
Theorem one_record_per_case_in_order D :
  orphan_free D = true ->
  readable_page D = true ->
  exists cases,
    extract D = Ok cases /\
    length cases = length (List.filter is_case D) /\
    map (with_trace []) cases = map record_of (List.filter is_case D).
Proof.
  intros Hfree Hr. unfold extract. rewrite cases_of_find_cases.
  cbn [page find_all_span]. fold (spans_of D).
  destruct (walk_spans_start (spans_of D) (walk_init []) eq_refl eq_refl)
    as (w & E & Hmap); [now rewrite texts_spans_of | now rewrite texts_spans_of|].
  rewrite texts_spans_of in Hmap. rewrite E.
  exists (all_cases w). split; [reflexivity|]. split; [|exact Hmap].
  apply (f_equal (@length Case)) in Hmap. now rewrite !length_map in Hmap.
Qed.

Lemma one_record_per_case_in_order_witness :
  let D := [u "扬州市通报"; u "确诊病例3，女，61岁，现住广陵区。"; u "活动轨迹";
            u "超市、菜场"; u "确诊病例4，男，3密接"] in
  orphan_free D = true /\
  readable_page D = true /\
  exists cases,
    extract D = Ok cases /\
    length cases = length (List.filter is_case D) /\
    map (with_trace []) cases = map record_of (List.filter is_case D).
Proof.
  intros D. split; [reflexivity|]. split; [reflexivity|].
  apply (one_record_per_case_in_order D); reflexivity.
Defined.

(** C3, as stated, fails: on the page "活动轨迹", "超市、菜场" no node
    opens a case, yet extraction returns no list at all: it stops with an
    index error. *)
Lemma no_result_on_orphan_label :
  let D := [u "活动轨迹"; u "超市、菜场"] in
  List.filter is_case D = [] /\ extract D = Raise IndexError.
Proof. vm_compute. split; reflexivity. Qed.

(** C6.  When an activity-trace label is followed by a further node and no
    node up to the label opens a case, extraction does not return: it stops
    with an index error, raised while the node after the label is
    processed, since there is no record to store the trace in. *)
Theorem orphan_trace_is_fatal pre lab next post :
  forallb (fun t => negb (is_case t)) pre = true ->
  is_label lab = true ->
  extract (pre ++ lab :: next :: post) = Raise IndexError /\
  forall e w,
    walk_spans (walk_init e) (spans_of (pre ++ [lab])) = Ok w ->
    all_cases w = [] /\ flag w = true /\
    span_step w (mkTag next ∅) = Raise IndexError.
Proof.
  intros Hpre Hl. split.
  - unfold extract. rewrite cases_of_find_cases.
    cbn [page find_all_span]. fold (spans_of (pre ++ lab :: next :: post)).
    rewrite walk_spans_orphan; try reflexivity.
    rewrite texts_spans_of. now apply orphan_free_label.
  - intros e w H.
    assert (Hno : forallb (fun sp => negb (is_case (get_text sp)))
                    (spans_of (pre ++ [lab])) = true).
    { unfold spans_of. rewrite forallb_forall. intros sp Hin.
      apply in_map_iff in Hin as (t & <- & Hin). cbn [get_text].
      apply in_app_or in Hin as [Hin|[<-|[]]].
      - rewrite forallb_forall in Hpre. now apply Hpre.
      - now rewrite (label_not_case _ Hl). }
    pose proof (walk_spans_no_case _ (walk_init e) w eq_refl Hno H) as Hnil.
    assert (Hflag : flag w = true).
    { unfold spans_of in H. rewrite map_app, walk_spans_app in H.
      destruct (walk_spans (walk_init e) (map (fun t => mkTag t ∅) pre))
        as [w1|x]; [|discriminate].
      cbn [bind map walk_spans] in H.
      rewrite span_step_eq in H
        by (apply not_case_readable; cbn [get_text]; now apply label_not_case).
      cbn [get_text] in H.
      destruct (if flag w1 then set_last_trace (all_cases w1) lab
                else Ok (all_cases w1)); [|discriminate].
      cbn [bind] in H. inversion H; subst. cbn [flag]. exact Hl. }
    repeat split; auto.
    rewrite span_step_any, Hflag, Hnil. reflexivity.
Qed.

Lemma orphan_trace_is_fatal_witness :
  let pre := [u "扬州市通报"] in
  let lab := u "活动轨迹" in
  let next := u "超市、菜场" in
  let post := [u "确诊病例5，男"] in
  forallb (fun t => negb (is_case t)) pre = true /\
  is_label lab = true /\
  extract (pre ++ lab :: next :: post) = Raise IndexError /\
  forall e w,
    walk_spans (walk_init e) (spans_of (pre ++ [lab])) = Ok w ->
    all_cases w = [] /\ flag w = true /\
    span_step w (mkTag next ∅) = Raise IndexError.
Proof.
  intros pre lab next post. split; [reflexivity|]. split; [reflexivity|].
  apply (orphan_trace_is_fatal pre lab next post); reflexivity.
Defined.

(** ** Properties of the export and of the link collector *)

(** C7.  [is_empty] holds exactly when gender, close contact and age are
    -1 and address and trace are the empty string.  In a run that reaches
    its end, the console receives one block and the file one row for each
    record of the sorted list that is not empty, and nothing for the
    others; sorting only reorders the gathered records. *)
Theorem empty_records_are_excluded fetch str_of_list out c :
  main fetch str_of_list = Ok out ->
  (is_empty c = true <->
   gender c = -1 /\ close_contact_id c = -1 /\ age c = -1 /\
   address c = [] /\ trace c = []) /\
  exists urls e1 all e2,
    compile_url_list fetch str_of_list start_url [] = Ok (urls, e1) /\
    visit fetch [] e1 (urls ++ [start_url]) = Ok (all, e2) /\
    Permutation (sort_by_id all) all /\
    out_stdout out =
      map (fun c => Case_str c ++ [newline])
          (List.filter (fun c => negb (is_empty c)) (sort_by_id all)) /\
    result_csv out =
      header :: map csv (List.filter (fun c => negb (is_empty c)) (sort_by_id all)).
Proof.
  intros H. split; [apply is_empty_iff|].
  unfold main in H.
  destruct (compile_url_list fetch str_of_list start_url []) as [[urls e1]|x]
    eqn:E1; [|discriminate].
  cbn [bind] in H.
  destruct (visit fetch [] e1 (urls ++ [start_url])) as [[all e2]|x]
    eqn:E2; [|discriminate].
  cbn [bind] in H. inversion H; subst. cbn [out_stdout result_csv].
  exists urls, e1, all, e2.
  split; [reflexivity|]. split; [exact E2|]. split; [apply sort_by_id_perm|].
  split; [now rewrite report_filter | now rewrite export_filter].
Qed.

Lemma empty_records_are_excluded_witness :
  let fetch := fun _ : text => Ok bulletin in
  let str_of_list := fun _ : list text => u "[]" in
  let c := mkCase 7 (-1) (-1) (-1) [] [] in
  exists out,
    main fetch str_of_list = Ok out /\
    (is_empty c = true <->
     gender c = -1 /\ close_contact_id c = -1 /\ age c = -1 /\
     address c = [] /\ trace c = []) /\
    exists urls e1 all e2,
      compile_url_list fetch str_of_list start_url [] = Ok (urls, e1) /\
      visit fetch [] e1 (urls ++ [start_url]) = Ok (all, e2) /\
      Permutation (sort_by_id all) all /\
      out_stdout out =
        map (fun c => Case_str c ++ [newline])
            (List.filter (fun c => negb (is_empty c)) (sort_by_id all)) /\
      result_csv out =
        header :: map csv (List.filter (fun c => negb (is_empty c)) (sort_by_id all)).
Proof.
  intros fetch str_of_list c.
  destruct (main fetch str_of_list) as [out|x] eqn:E.
  - exists out. split; [reflexivity|].
    apply (empty_records_are_excluded fetch str_of_list out c E).
  - exfalso. vm_compute in E. discriminate E.
Defined.

(** The run of the witness: record 7 has no field beyond its identifier
    and is left out of the file; record 3 is written. *)
Example example_export :
  rmap result_csv (main (fun _ => Ok bulletin) (fun _ => u "[]")) =
  Ok [header; u "3,1,61,广陵区,-1,超市、菜场" ++ [newline]].
Proof. vm_compute. reflexivity. Qed.

(** C8.  A record whose address and trace hold no comma is recovered from
    its row: the row without its line end splits at the commas into the six
    rendered fields, each numeric field (sentinels included) reads back as
    its integer, and so the reader returns the record. *)
Theorem csv_round_trip c :
  ~ In comma (address c) ->
  ~ In comma (trace c) ->
  split comma (slice (csv c) 0 (-1)) =
    [str (case_id c); str (gender c); str (age c); address c;
     str (close_contact_id c); trace c] /\
  int_with 0 (str (case_id c)) = Ok (case_id c) /\
  int_with 0 (str (gender c)) = Ok (gender c) /\
  int_with 0 (str (age c)) = Ok (age c) /\
  int_with 0 (str (close_contact_id c)) = Ok (close_contact_id c) /\
  parse_row (csv c) = Ok c.
Proof.
  intros Ha Ht.
  assert (Hsplit : split comma (slice (csv c) 0 (-1)) =
    [str (case_id c); str (gender c); str (age c); address c;
     str (close_contact_id c); trace c]).
  { unfold csv. rewrite !app_assoc. rewrite slice_drop_last.
    rewrite <- !app_assoc. cbn [app].
    rewrite !split_field by (auto using str_no_comma).
    now rewrite split_none. }
  split; [exact Hsplit|].
  repeat (split; [apply int_str|]).
  unfold parse_row. rewrite Hsplit, !int_str. cbn [bind]. now destruct c.
Qed.

Lemma csv_round_trip_witness :
  let c := mkCase 12 0 (-1) 45 (u "扬州市邗江区") (u "超市、菜场") in
  ~ In comma (address c) /\
  ~ In comma (trace c) /\
  split comma (slice (csv c) 0 (-1)) =
    [str (case_id c); str (gender c); str (age c); address c;
     str (close_contact_id c); trace c] /\
  int_with 0 (str (case_id c)) = Ok (case_id c) /\
  int_with 0 (str (gender c)) = Ok (gender c) /\
  int_with 0 (str (age c)) = Ok (age c) /\
  int_with 0 (str (close_contact_id c)) = Ok (close_contact_id c) /\
  parse_row (csv c) = Ok c.
Proof.
  intros c.
  assert (Ha : ~ In comma (address c)).
  { vm_compute. intros H. repeat (destruct H as [H|H]; [discriminate H|]). exact H. }
  assert (Ht : ~ In comma (trace c)).
  { vm_compute. intros H. repeat (destruct H as [H|H]; [discriminate H|]). exact H. }
  split; [exact Ha|]. split; [exact Ht|].
  apply (csv_round_trip c Ha Ht).
Defined.

(** C9.  On a fetched entry page the collector returns the [href] of every
    [a] tag whose text starts with "<digits>月<digits>日扬州", in document
    order and one entry per tag, so an address met twice is listed twice;
    if one of these tags has no [href], the run stops with a key error. *)
Theorem link_collector fetch str_of_list entry_url soup e :
  fetch entry_url = Ok soup ->
  let links := List.filter (fun a => is_link (get_text a)) (find_all_a soup) in
  ((forall a, In a links -> attrs a !! "href" <> None) ->
   exists e',
     compile_url_list fetch str_of_list entry_url e = Ok (map href links, e') /\
     map (fun a => attrs a !! "href") links = map Some (map href links) /\
     length (map href links) = length links) /\
  ((exists a, In a links /\ attrs a !! "href" = None) ->
   compile_url_list fetch str_of_list entry_url e = Raise KeyError).
Proof.
  intros Hf links.
  assert (Hok : links_ok (find_all_a soup) = true <->
                forall a, In a links -> attrs a !! "href" <> None).
  { unfold links_ok, links. rewrite forallb_forall. split.
    - intros H a Hin. apply filter_In in Hin as [Hin Hl].
      specialize (H a Hin). rewrite Hl in H. cbn [negb orb] in H.
      unfold has_href in H. now destruct (attrs a !! "href").
    - intros H a Hin. destruct (is_link (get_text a)) eqn:Hl; [|reflexivity].
      cbn [negb orb]. specialize (H a).
      unfold has_href. destruct (attrs a !! "href"); [reflexivity|].
      exfalso. apply H; [|reflexivity]. apply filter_In. now split. }
  unfold compile_url_list, create_soup. rewrite Hf. cbn [bind].
  rewrite collect_links_eq. cbn [app]. fold links. split.
  - intros H. pose proof H as H'. apply Hok in H'. rewrite H'. cbn [bind].
    eexists. split; [reflexivity|]. split; [|apply length_map].
    rewrite map_map. apply map_ext_in. intros a Hin. specialize (H a Hin).
    unfold href. now destruct (attrs a !! "href").
  - intros (a & Hin & Hnone).
    destruct (links_ok (find_all_a soup)) eqn:E; [|reflexivity].
    exfalso. apply (proj1 Hok eq_refl a Hin Hnone).
Qed.

Lemma link_collector_witness :
  let fetch := fun _ : text => Ok entry_page in
  let str_of_list := fun _ : list text => u "[]" in
  let links := List.filter (fun a => is_link (get_text a)) (find_all_a entry_page) in
  fetch start_url = Ok entry_page /\
  ((forall a, In a links -> attrs a !! "href" <> None) ->
   exists e',
     compile_url_list fetch str_of_list start_url [] = Ok (map href links, e') /\
     map (fun a => attrs a !! "href") links = map Some (map href links) /\
     length (map href links) = length links) /\
  ((exists a, In a links /\ attrs a !! "href" = None) ->
   compile_url_list fetch str_of_list start_url [] = Raise KeyError).
Proof.
  intros fetch str_of_list links. split; [reflexivity|].
  apply (link_collector fetch str_of_list start_url entry_page [] eq_refl).
Defined.

(** The entry page of the witness: the address met twice is listed twice. *)
Example example_links :
  rmap fst (compile_url_list (fun _ => Ok entry_page) (fun _ => u "[]") start_url []) =
  Ok [u "http://a"; u "http://a"; u "http://c"].
Proof. vm_compute. reflexivity. Qed.

(** C10.  The flag belongs to one call of [find_cases]: each call starts
    with the flag unset.  So when the last node of a page is an
    activity-trace label, the walk of that page ends with the flag set, but
    the records gathered from this page and the next are those the two
    pages give when read separately; no node of the second page is consumed
    as a trace of the first. *)
Theorem flag_is_local fetch url1 url2 soup1 soup2 spans1 lab all e :
  fetch url1 = Ok soup1 ->
  fetch url2 = Ok soup2 ->
  find_all_span soup1 = spans1 ++ [lab] ->
  is_label (get_text lab) = true ->
  (forall e1 w, walk_spans (walk_init e1) (find_all_span soup1) = Ok w ->
                flag w = true) /\
  (forall e2, flag (walk_init e2) = false /\
              cases_of (find_cases soup2 e2) =
              rmap all_cases (walk_spans (walk_init e2) (find_all_span soup2))) /\
  cases_of (visit fetch all e [url1; url2]) =
    (cases1 <- cases_of (find_cases soup1 []) ;;
     cases2 <- cases_of (find_cases soup2 []) ;;
     Ok (all ++ cases1 ++ cases2)).
Proof.
  intros H1 H2 Hs Hl. split; [|split].
  - intros e1 w H. rewrite Hs, walk_spans_app in H.
    destruct (walk_spans (walk_init e1) spans1) as [w1|x]; [|discriminate].
    cbn [bind walk_spans] in H.
    rewrite span_step_eq in H
      by (apply not_case_readable; now apply label_not_case).
    destruct (if flag w1 then set_last_trace (all_cases w1) (get_text lab)
              else Ok (all_cases w1)); [|discriminate].
    cbn [bind] in H. inversion H; subst. exact Hl.
  - intros e2. split; [reflexivity | apply cases_of_find_cases].
  - rewrite visit_gather. cbn [gather]. rewrite H1, H2. cbn [bind].
    destruct (cases_of (find_cases soup1 [])) as [cases1|x]; [|reflexivity].
    cbn [bind].
    destruct (cases_of (find_cases soup2 [])) as [cases2|x]; [|reflexivity].
    cbn [bind]. now rewrite <- app_assoc.
Qed.

Lemma flag_is_local_witness :
  let fetch := fun url : text =>
    if bool_decide (url = u "http://a") then Ok first_page else Ok second_page in
  let url1 := u "http://a" in
  let url2 := u "http://c" in
  let lab := mkTag (u "活动轨迹") ∅ in
  let spans1 := [mkTag (u "确诊病例3，女，61岁，现住广陵区。") ∅] in
  fetch url1 = Ok first_page /\
  fetch url2 = Ok second_page /\
  find_all_span first_page = spans1 ++ [lab] /\
  is_label (get_text lab) = true /\
  (forall e1 w, walk_spans (walk_init e1) (find_all_span first_page) = Ok w ->
                flag w = true) /\
  (forall e2, flag (walk_init e2) = false /\
              cases_of (find_cases second_page e2) =
              rmap all_cases (walk_spans (walk_init e2) (find_all_span second_page))) /\
  cases_of (visit fetch [] [] [url1; url2]) =
    (cases1 <- cases_of (find_cases first_page []) ;;
     cases2 <- cases_of (find_cases second_page []) ;;
     Ok ([] ++ cases1 ++ cases2)).
Proof.
  intros fetch url1 url2 lab spans1.
  split; [reflexivity|]. split; [reflexivity|].
  split; [reflexivity|]. split; [reflexivity|].
  apply (flag_is_local fetch url1 url2 first_page second_page spans1 lab [] []);
    reflexivity.
Defined.

(** The two pages of the witness: the trace of record 3 stays empty. *)
Example example_two_pages :
  gather (fun url => if bool_decide (url = u "http://a")
                     then Ok first_page else Ok second_page)
         [] [u "http://a"; u "http://c"] =
  Ok [mkCase 3 1 (-1) 61 (u "广陵区") []; mkCase 4 0 3 (-1) [] []].
Proof. vm_compute. reflexivity. Qed.

(** ** More on the patterns *)

Section Patterns.

Implicit Types (s t m p ds rest : text) (k : text -> option text) (c d : char).

Lemma run_lits p : forall s k,
  run (lits p) (p ++ s) k =
  match k s with
  | Some m => Some (p ++ m)
  | None => None
  end.
Proof.
  induction p as [|c p IH]; intros s k.
  - cbn [lits run app]. now destruct (k s).
  - cbn [lits run app accepts]. rewrite Z.eqb_refl, IH.
    now destruct (k s).
Qed.

Lemma greedy_star_stop s k :
  starts_nondigit s = true -> greedy_star digit s k = k s.
Proof.
  destruct s as [|c s]; [reflexivity|].
  cbn [starts_nondigit greedy_star]. unfold is_digit.
  now destruct (accepts digit c).
Qed.

(** [[0-9]*] takes a whole run of digits when the rest of the pattern
    matches right after it. *)
Lemma greedy_star_digits ds : forall s k m,
  forallb is_digit ds = true ->
  starts_nondigit s = true ->
  k s = Some m ->
  greedy_star digit (ds ++ s) k = Some (ds ++ m).
Proof.
  induction ds as [|d ds IH]; intros s k m Hd Hs Hk.
  - cbn [app]. now rewrite greedy_star_stop.
  - cbn [forallb] in Hd. apply andb_true_iff in Hd as [Hd Hds].
    cbn [app greedy_star]. unfold is_digit in Hd. rewrite Hd.
    now rewrite (IH s k m Hds Hs Hk).
Qed.

Lemma run_plus_digits ds s k m :
  ds <> [] ->
  forallb is_digit ds = true ->
  starts_nondigit s = true ->
  k s = Some m ->
  run (Plus digit) (ds ++ s) k = Some (ds ++ m).
Proof.
  intros Hne Hd Hs Hk. destruct ds as [|d ds]; [congruence|].
  cbn [forallb] in Hd. apply andb_true_iff in Hd as [Hd Hds].
  cbn [app run]. unfold is_digit in Hd. rewrite Hd.
  now rewrite (greedy_star_digits ds s k m Hds Hs Hk).
Qed.

Lemma matches_plus_digits m :
  matches (Plus digit) m -> m <> [] /\ forallb is_digit m = true.
Proof.
  intros H. inversion H; subst. split; [discriminate|].
  cbn [forallb]. unfold is_digit. apply andb_true_iff. now split.
Qed.

Lemma digit_run_app ds rest :
  forallb is_digit ds = true -> starts_nondigit rest = true ->
  digit_run (ds ++ rest) = ds.
Proof.
  intros Hd Hr. induction ds as [|d ds IH].
  - destruct rest as [|c rest]; [reflexivity|].
    cbn [app digit_run starts_nondigit] in *.
    apply negb_true_iff in Hr. now rewrite Hr.
  - cbn [forallb] in Hd. apply andb_true_iff in Hd as [Hd Hds].
    cbn [app digit_run]. rewrite Hd. f_equal. now apply IH.
Qed.

Lemma first_digit_run_app pre ds rest :
  forallb (fun c => negb (is_digit c)) pre = true ->
  ds <> [] -> forallb is_digit ds = true -> starts_nondigit rest = true ->
  first_digit_run (pre ++ ds ++ rest) = ds.
Proof.
  intros Hpre Hne Hd Hr. rewrite first_digit_run_skip by exact Hpre.
  destruct ds as [|d ds]; [congruence|].
  cbn [forallb] in Hd. apply andb_true_iff in Hd as [Hd1 Hds].
  change ((d :: ds) ++ rest) with (d :: (ds ++ rest)).
  rewrite first_digit_run_head by exact Hd1.
  f_equal. now apply digit_run_app.
Qed.

(** X1.  [extract_number] returns a number only for index 0 and a text
    that holds a digit and whose first run of digits has at most 4300
    digits; it is then the decimal value of that run.  On a text without a
    digit it raises a type error (it does not return [None]); with a digit
    and any other index it raises an index error; with index 0 and a first
    run of more than 4300 digits, [int] raises a value error. *)
Theorem extract_number_outcome s (i : Z) :
  extract_number s i =
  match first_digit_run s with
  | [] => Raise TypeError
  | ds =>
    if i =? 0
    then if within_limit ds then Ok (decimal ds) else Raise ValueError
    else Raise IndexError
  end.
Proof.
  unfold extract_number. rewrite search_number.
  pose proof (first_digit_run_digits s) as Hd.
  destruct (first_digit_run s) as [|d ds] eqn:E; [reflexivity|].
  cbn [subscript bind]. destruct (i =? 0); [|reflexivity].
  cbn [bind]. rewrite int_digits; [|discriminate | exact Hd].
  now rewrite int_of_digits_decimal.
Qed.

(** X2.  In a text made of characters that are no digits, then a
    non-empty run of digits, then either nothing or a rest that starts with
    a character that is no digit, [extract_number] reads that run and no
    later digits: it returns the decimal value of the run when the run has
    at most 4300 digits, and raises a value error when it is longer. *)
Theorem extract_number_first_run pre ds rest :
  forallb (fun c => negb (is_digit c)) pre = true ->
  ds <> [] ->
  forallb is_digit ds = true ->
  starts_nondigit rest = true ->
  extract_number (pre ++ ds ++ rest) 0 =
  if within_limit ds then Ok (decimal ds) else Raise ValueError.
Proof.
  intros Hpre Hne Hd Hr. unfold extract_number. rewrite search_number.
  rewrite (first_digit_run_app pre ds rest Hpre Hne Hd Hr).
  destruct ds as [|d ds']; [congruence|].
  cbn [subscript bind]. rewrite Z.eqb_refl. cbn [bind].
  rewrite int_digits by assumption. now rewrite int_of_digits_decimal.
Qed.

Lemma extract_number_first_run_witness :
  let pre := u "病例" in
  let ds := u "12" in
  let rest := u "，男，45岁" in
  forallb (fun c => negb (is_digit c)) pre = true /\
  ds <> [] /\
  forallb is_digit ds = true /\
  starts_nondigit rest = true /\
  within_limit ds = true /\ decimal ds = 12 /\
  extract_number (pre ++ ds ++ rest) 0 =
  if within_limit ds then Ok (decimal ds) else Raise ValueError.
Proof.
  intros pre ds rest.
  assert (Hne : ds <> []) by discriminate.
  split; [reflexivity|]. split; [exact Hne|].
  split; [reflexivity|]. split; [reflexivity|].
  split; [reflexivity|]. split; [reflexivity|].
  apply (extract_number_first_run pre ds rest eq_refl Hne eq_refl eq_refl).
Defined.

(** X3.  A node opens a case exactly when its text starts with
    "确诊病例" followed by a digit; what comes after does not matter. *)
Theorem is_case_iff t :
  is_case t = true <->
  exists d rest, t = u "确诊病例" ++ d :: rest /\ is_digit d = true.
Proof.
  split; [apply is_case_shape|].
  intros (d & rest & -> & Hd). unfold is_case, match_, pat_case.
  cbn [run]. rewrite run_lits. cbn [run]. unfold is_digit in Hd. rewrite Hd.
  now rewrite greedy_star_all.
Qed.

(** X4.  A node is an activity-trace label exactly when its text starts
    with "活动轨迹"; a longer text with this start is a label too. *)
Theorem is_label_iff t :
  is_label t = true <-> exists rest, t = u "活动轨迹" ++ rest.
Proof.
  unfold is_label, match_, pat_trace. split.
  - destruct (run (lits (u "活动轨迹")) t accept) as [m|] eqn:E; [|discriminate].
    intros _. apply run_sound in E as (m1 & m2 & s' & -> & H1 & _ & _).
    apply matches_lits in H1 as ->. eauto.
  - intros (rest & ->). now rewrite run_lits.
Qed.

Lemma matches_link_shape p1 p2 m :
  matches (Seq (Plus digit) (Seq (lits p1) (Seq (Plus digit) (lits p2)))) m ->
  exists ds1 ds2,
    m = ds1 ++ p1 ++ ds2 ++ p2 /\
    ds1 <> [] /\ forallb is_digit ds1 = true /\
    ds2 <> [] /\ forallb is_digit ds2 = true.
Proof.
  intros H.
  inversion H as [| |r1 r2 m1 m2 H1 H2| | | | |]; subst.
  inversion H2 as [| |r3 r4 m3 m4 H3 H4| | | | |]; subst.
  inversion H4 as [| |r5 r6 m5 m6 H5 H6| | | | |]; subst.
  apply matches_lits in H3 as ->. apply matches_lits in H6 as ->.
  apply matches_plus_digits in H1 as [Hn1 Hd1].
  apply matches_plus_digits in H5 as [Hn5 Hd5].
  exists m1, m5. auto.
Qed.

Lemma run_Seq r1 r2 s k :
  run (Seq r1 r2) s k = run r1 s (fun s' => run r2 s' k).
Proof. reflexivity. Qed.

Lemma run_link p1 p2 ds1 ds2 rest :
  ds1 <> [] -> forallb is_digit ds1 = true ->
  ds2 <> [] -> forallb is_digit ds2 = true ->
  starts_nondigit (p1 ++ ds2 ++ p2 ++ rest) = true ->
  starts_nondigit (p2 ++ rest) = true ->
  run (Seq (Plus digit) (Seq (lits p1) (Seq (Plus digit) (lits p2))))
      (ds1 ++ p1 ++ ds2 ++ p2 ++ rest) accept =
  Some (ds1 ++ p1 ++ ds2 ++ p2).
Proof.
  intros Hn1 Hd1 Hn2 Hd2 Hs1 Hs2. rewrite run_Seq.
  apply run_plus_digits; auto.
  rewrite run_Seq, run_lits, run_Seq.
  rewrite (run_plus_digits ds2 (p2 ++ rest) _ p2); auto.
  rewrite run_lits. cbn [accept]. now rewrite app_nil_r.
Qed.

(** X5.  The text of an [a] tag is taken as a bulletin link exactly when
    it starts with a non-empty run of digits, "月", a non-empty run of
    digits and "日扬州". *)
Theorem is_link_iff t :
  is_link t = true <->
  exists ds1 ds2 rest,
    t = ds1 ++ u "月" ++ ds2 ++ u "日扬州" ++ rest /\
    ds1 <> [] /\ forallb is_digit ds1 = true /\
    ds2 <> [] /\ forallb is_digit ds2 = true.
Proof.
  unfold is_link. split.
  - destruct (match_ pat_link t) as [m|] eqn:E; [|discriminate].
    intros _. apply match_sound in E as [H [s' ->]].
    apply matches_link_shape in H as (ds1 & ds2 & -> & H).
    exists ds1, ds2, s'. rewrite <- !app_assoc. auto.
  - intros (ds1 & ds2 & rest & -> & Hn1 & Hd1 & Hn2 & Hd2).
    unfold match_, pat_link.
    rewrite (run_link (u "月") (u "日扬州") ds1 ds2 rest); auto.
Qed.

End Patterns.

(** ** Gender and address *)

Section GenderAddress.

Implicit Types (s t m x : text) (k : text -> option text) (c : char).

Lemma pat_gender_eq : pat_gender = Alt (lits [male]) (lits [female]).
Proof. reflexivity. Qed.

Lemma match_gender c s :
  match_ pat_gender (c :: s) =
  if (c =? male) || (c =? female) then Some [c] else None.
Proof.
  rewrite pat_gender_eq. unfold match_.
  cbn [run lits accepts accept consumed orelse].
  destruct (c =? male); [reflexivity|].
  destruct (c =? female); reflexivity.
Qed.

Lemma search_gender t :
  search pat_gender t =
  match first_gender_mark t with
  | Some c => Some [c]
  | None => None
  end.
Proof.
  unfold first_gender_mark. induction t as [|c t IH]; [reflexivity|].
  cbn [search List.find]. rewrite match_gender.
  destruct ((c =? male) || (c =? female)); [reflexivity | exact IH].
Qed.

(** X6.  The gender of a record is decided by the first 男 or 女 anywhere
    in the paragraph: 0 if that character is 男, 1 if it is 女, and -1 when
    the paragraph holds neither. *)
Theorem gender_by_first_mark t :
  gender (record_of t) =
  match first_gender_mark t with
  | Some c => if c =? male then 0 else 1
  | None => -1
  end.
Proof.
  cbn [record_of gender]. unfold field_gender. rewrite search_gender.
  destruct (first_gender_mark t) as [c|]; [|reflexivity].
  change (u "男") with [male].
  destruct (c =? male) eqn:E.
  - apply Z.eqb_eq in E. subst. reflexivity.
  - apply Z.eqb_neq in E. rewrite bool_decide_eq_false_2; [reflexivity|].
    intros H. inversion H. contradiction.
Qed.

(** A lazy star stops at the first place where the rest of the pattern
    matches. *)
Lemma lazy_star_first a s k m :
  lazy_star a s k = Some m ->
  exists x m2 s',
    s = x ++ s' /\ forallb (accepts a) x = true /\
    k s' = Some m2 /\ m = x ++ m2 /\
    forall x1 x2, x = x1 ++ x2 -> x2 <> [] -> k (x2 ++ s') = None.
Proof.
  revert m. induction s as [|c s IH]; intros m H.
  - cbn [lazy_star] in H. apply orelse_Some in H as [H | [_ H]]; [|discriminate].
    exists [], m, []. repeat split; auto.
    intros x1 x2 E Hne. symmetry in E. apply app_eq_nil in E as [_ ->].
      congruence.
  - cbn [lazy_star] in H. apply orelse_Some in H as [H | [Hk H]].
    + exists [], m, (c :: s). repeat split; auto.
      intros x1 x2 E Hne. symmetry in E. apply app_eq_nil in E as [_ ->].
      congruence.
    + destruct (accepts a c) eqn:Hc; [|discriminate].
      apply consumed_Some in H as (m' & H & ->).
      apply IH in H as (x & m2 & s' & -> & Hx & Hk2 & -> & Hmin).
      exists (c :: x), m2, s'. repeat split; auto.
      * cbn [forallb]. now rewrite Hc, Hx.
      * intros x1 x2 E Hne. destruct x1 as [|c1 x1].
        -- cbn [app] in E. subst x2. exact Hk.
        -- cbn [app] in E. inversion E; subst. now apply (Hmin x1 x2).
Qed.

Lemma run_lits_inv p s k m :
  run (lits p) s k = Some m ->
  exists s1 m', s = p ++ s1 /\ k s1 = Some m' /\ m = p ++ m'.
Proof.
  intros H. apply run_sound in H as (m1 & m2 & s' & -> & H1 & Hk & ->).
  apply matches_lits in H1 as ->. eauto.
Qed.

Lemma slice_strip (p x : text) c :
  length p = 2%nat -> slice (p ++ x ++ [c]) 2 (-1) = x.
Proof.
  intros Hp. unfold slice. rewrite !length_app, Hp. cbn [length].
  cbn [Z.ltb Z.compare].
  set (n := Z.of_nat (2 + (length x + 1))).
  replace (Z.max 0 (Z.min n 2)) with 2 by lia.
  replace (Z.max 0 (Z.min n (-1 + n))) with (Z.of_nat (length x) + 2) by lia.
  replace (Z.of_nat (length x) + 2 - 2) with (Z.of_nat (length x)) by lia.
  rewrite Nat2Z.id. change (Z.to_nat 2) with 2%nat. rewrite <- Hp.
  rewrite drop_app_length. apply take_app_length.
Qed.

(** The shape of a match of the address pattern at the start of a text. *)
Lemma match_address s m :
  match_ pat_address s = Some m ->
  exists x, m = u "现住" ++ x ++ [full_stop] /\
            ~ In full_stop x /\ ~ In newline x.
Proof.
  unfold match_, pat_address. rewrite run_Seq. intros H.
  apply run_lits_inv in H as (s1 & m1 & -> & H & ->).
  rewrite run_Seq in H. cbn [run] in H.
  apply lazy_star_first in H as (x & m2 & s' & -> & Hx & Hk & -> & Hmin).
  apply run_lits_inv in Hk as (s2 & m3 & -> & Hk & ->).
  cbn [accept] in Hk. inversion Hk; subst.
  exists x. change (u "。") with [full_stop]. rewrite app_nil_r.
  split; [reflexivity|]. split.
  - intros Hin. apply in_split in Hin as (x1 & x2 & ->).
    specialize (Hmin x1 (full_stop :: x2) eq_refl ltac:(discriminate)).
    change (u "。") with [full_stop] in Hmin.
    change ((full_stop :: x2) ++ [full_stop] ++ s2)
      with ([full_stop] ++ (x2 ++ [full_stop] ++ s2)) in Hmin.
    rewrite run_lits in Hmin. discriminate Hmin.
  - intros Hin. rewrite forallb_forall in Hx. apply Hx in Hin.
    discriminate Hin.
Qed.

Lemma search_address t m :
  search pat_address t = Some m ->
  exists x, m = u "现住" ++ x ++ [full_stop] /\
            ~ In full_stop x /\ ~ In newline x.
Proof.
  induction t as [|c t IH]; cbn [search]; intros H.
  - destruct (match_ pat_address []) eqn:E; [|discriminate].
    inversion H; subst. now apply match_address in E.
  - destruct (match_ pat_address (c :: t)) eqn:E.
    + inversion H; subst. now apply match_address in E.
    + now apply IH.
Qed.

(** X7.  When the address search succeeds, the matched span is "现住",
    the address, and one "。"; the address is what lies between the marker
    and the first "。" after it, so it holds neither "。" nor a line
    break. *)
Theorem address_up_to_first_full_stop t m :
  search pat_address t = Some m ->
  m = u "现住" ++ address (record_of t) ++ [full_stop] /\
  ~ In full_stop (address (record_of t)) /\
  ~ In newline (address (record_of t)) /\
  exists pre post, t = pre ++ m ++ post.
Proof.
  intros H. cbn [record_of address]. unfold field_address. rewrite H.
  pose proof (search_sound _ _ _ H) as [_ Hfac].
  apply search_address in H as (x & -> & Hfs & Hnl).
  rewrite slice_strip by reflexivity. auto.
Qed.

Lemma address_up_to_first_full_stop_witness :
  let t := u "确诊病例3，现住广陵区。系确诊病例1密接。" in
  let m := u "现住广陵区。" in
  search pat_address t = Some m /\
  m = u "现住" ++ address (record_of t) ++ [full_stop] /\
  ~ In full_stop (address (record_of t)) /\
  ~ In newline (address (record_of t)) /\
  exists pre post, t = pre ++ m ++ post.
Proof.
  intros t m.
  assert (H : search pat_address t = Some m) by (vm_compute; reflexivity).
  split; [exact H|]. apply (address_up_to_first_full_stop t m H).
Defined.

(** X8.  A paragraph without a "。" has no address: the search fails and
    the field stays empty, even when "现住" is there. *)
Theorem address_needs_full_stop t :
  ~ In full_stop t ->
  search pat_address t = None /\ address (record_of t) = [].
Proof.
  intros Hno. assert (E : search pat_address t = None).
  { destruct (search pat_address t) as [m|] eqn:E; [|reflexivity].
    exfalso. pose proof (search_sound _ _ _ E) as [_ (pre & post & ->)].
    apply search_address in E as (x & -> & _).
    apply Hno. rewrite !in_app_iff. right. left. right. right. now left. }
  split; [exact E|]. cbn [record_of address]. unfold field_address. now rewrite E.
Qed.

Lemma address_needs_full_stop_witness :
  let t := u "确诊病例5，男，现住广陵区" in
  ~ In full_stop t /\
  search pat_address t = None /\ address (record_of t) = [].
Proof.
  intros t.
  assert (H : ~ In full_stop t).
  { vm_compute. intros H. repeat (destruct H as [H|H]; [discriminate H|]). exact H. }
  split; [exact H|]. apply (address_needs_full_stop t H).
Defined.

End GenderAddress.

(** ** More on the walk *)

Section WalkMore.

Implicit Types (w : walk) (t p lab : text) (D pre : list text) (spans : list Tag).

Lemma orphan_free_false D :
  orphan_free D = false ->
  exists pre lab next post,
    D = pre ++ lab :: next :: post /\
    forallb (fun t => negb (is_case t)) pre = true /\
    is_label lab = true.
Proof.
  induction D as [|t D IH]; [discriminate|].
  cbn [orphan_free]. destruct (is_case t) eqn:Hc; [discriminate|].
  destruct (is_label t) eqn:Hl.
  - destruct D as [|next post]; [discriminate|]. intros _.
    exists [], t, next, post. auto.
  - intros H. apply IH in H as (pre & lab & next & post & -> & Hpre & Hlab).
    exists (t :: pre), lab, next, post. repeat split; auto.
    cbn [forallb]. now rewrite Hc, Hpre.
Qed.

Lemma readable_page_false D :
  readable_page D = false <->
  exists p, In p D /\ is_case p = true /\ ints_readable p = false.
Proof.
  unfold readable_page. split.
  - intros H. induction D as [|t D IH]; [discriminate|].
    cbn [forallb] in H. destruct (unreadable t) eqn:Hu.
    + exists t. unfold unreadable in Hu. apply andb_true_iff in Hu as [Hc Hr].
      apply negb_true_iff in Hr. split; [now left | auto].
    + cbn [negb andb] in H. destruct (IH H) as (p & Hin & Hp).
      exists p. split; [now right | exact Hp].
  - intros (p & Hin & Hc & Hr).
    destruct (forallb (fun t => negb (unreadable t)) D) eqn:E; [|reflexivity].
    rewrite forallb_forall in E. specialize (E p Hin).
    unfold unreadable in E. rewrite Hc, Hr in E. discriminate E.
Qed.

Lemma extract_outcome D :
  extract D =
  if orphan_free D
  then if readable_page D
       then rmap all_cases (walk_spans (walk_init []) (spans_of D))
       else Raise ValueError
  else Raise IndexError.
Proof.
  unfold extract. rewrite cases_of_find_cases.
  cbn [page find_all_span]. fold (spans_of D).
  destruct (orphan_free D) eqn:E.
  - destruct (readable_page D) eqn:Er; [reflexivity|].
    rewrite walk_spans_start_unreadable; auto; now rewrite texts_spans_of.
  - rewrite walk_spans_orphan; auto. now rewrite texts_spans_of.
Qed.

(** X9.  [find_cases] raises two exceptions only.  It raises the index
    error of the trace assignment exactly on the pages where an
    activity-trace label is followed by a further node while no node up to
    the label opens a case.  It raises the value error of [int] exactly on
    the other pages that hold a node which opens a case and whose
    identifier, close contact or age has more than 4300 digits. *)
Theorem extract_raises_iff D x :
  let orphan :=
    exists pre lab next post,
      D = pre ++ lab :: next :: post /\
      forallb (fun t => negb (is_case t)) pre = true /\
      is_label lab = true in
  extract D = Raise x <->
  (x = IndexError /\ orphan) \/
  (x = ValueError /\ ~ orphan /\
   exists p, In p D /\ is_case p = true /\ ints_readable p = false).
Proof.
  intros orphan. rewrite extract_outcome. split.
  - destruct (orphan_free D) eqn:E.
    + destruct (readable_page D) eqn:Er.
      * destruct (walk_spans_start (spans_of D) (walk_init []) eq_refl eq_refl)
          as (w & Hw & _); [now rewrite texts_spans_of | now rewrite texts_spans_of|].
        rewrite Hw. discriminate.
      * intros H. inversion H; subst. right. split; [reflexivity|]. split.
        -- intros (pre & lab & next & post & -> & Hpre & Hl).
           rewrite orphan_free_label in E by assumption. discriminate E.
        -- now apply readable_page_false.
    + intros H. inversion H; subst. left. split; [reflexivity|].
      now apply orphan_free_false.
  - intros [[-> (pre & lab & next & post & -> & Hpre & Hl)] | (-> & Hno & Hp)].
    + now rewrite orphan_free_label.
    + destruct (orphan_free D) eqn:E.
      * apply readable_page_false in Hp. now rewrite Hp.
      * exfalso. apply Hno. now apply orphan_free_false.
Qed.

Lemma set_last_trace_length (cases cases' : list Case) t :
  set_last_trace cases t = Ok cases' -> length cases' = length cases.
Proof.
  unfold set_last_trace.
  destruct (cases !! (length cases - 1)%nat); [|discriminate].
  intros H. inversion H; subst. apply length_insert.
Qed.

(** What the loop does to its counters and to the diagnostic stream. *)
Lemma walk_spans_counts spans : forall w w',
  walk_spans w spans = Ok w' ->
  let cases := List.filter is_case (map get_text spans) in
  dbg_cnt w' = dbg_cnt w + Z.of_nat (length spans) /\
  dbg_found_cnt w' = dbg_found_cnt w + Z.of_nat (length cases) /\
  length (all_cases w') = (length (all_cases w) + length cases)%nat /\
  stderr w' = stderr w ++ concat (map warnings cases).
Proof.
  induction spans as [|sp spans IH]; intros w w' H.
  - cbn in H. inversion H; subst. cbn. rewrite app_nil_r. repeat split; lia.
  - cbn [walk_spans] in H. rewrite span_step_any in H.
    destruct (if flag w then set_last_trace (all_cases w) (get_text sp)
              else Ok (all_cases w)) as [cases1|x] eqn:E1; [|discriminate].
    assert (Hlen : length cases1 = length (all_cases w)).
    { destruct (flag w); [now apply set_last_trace_length in E1|].
      now inversion E1. }
    cbn [bind] in H.
    destruct (unreadable (get_text sp)); [discriminate|].
    cbn [bind] in H. apply IH in H. cbn zeta in H.
    cbn [dbg_cnt dbg_found_cnt all_cases stderr] in H.
    destruct H as (H1 & H2 & H3 & H4).
    cbn [map List.filter length]. cbn zeta.
    destruct (is_case (get_text sp)); cbn [length map concat].
    + rewrite length_app in H3. cbn [length] in H3.
      rewrite H4, <- app_assoc. repeat split; try lia.
    + repeat split; try lia. exact H4.
Qed.

(** X10.  When [find_cases] returns, it has added to the diagnostic
    stream the diagnostics of the nodes that open a case, in document
    order, and then one line with the number of [span] nodes and the number
    of nodes that opened a case; the latter is the number of records
    returned. *)
Theorem find_cases_log soup e cases e' :
  find_cases soup e = Ok (cases, e') ->
  let spans := find_all_span soup in
  let opening := List.filter is_case (map get_text spans) in
  length cases = length opening /\
  e' = e ++ concat (map warnings opening) ++
       [dbg_line (u "Total " ++ str (Z.of_nat (length spans)) ++
                  u " spans iterated, found " ++ str (Z.of_nat (length cases)))
                 DEBUG].
Proof.
  intros H spans opening. unfold find_cases in H.
  destruct (walk_spans (walk_init e) (find_all_span soup)) as [w|x] eqn:E;
    [|discriminate].
  cbn [bind] in H. inversion H; subst.
  apply walk_spans_counts in E. cbn zeta in E.
  cbn [walk_init dbg_cnt dbg_found_cnt all_cases stderr length] in E.
  destruct E as (H1 & H2 & H3 & H4). fold spans in H1. fold spans opening in H2, H3, H4.
  split; [exact H3|].
  rewrite dbg_print_line, H4, H1, H2, H3, <- app_assoc. reflexivity.
Qed.

Lemma find_cases_log_witness :
  let soup := page [u "扬州市通报"; u "确诊病例13，女，现住广陵区。"] in
  exists cases e',
    find_cases soup [] = Ok (cases, e') /\
    let spans := find_all_span soup in
    let opening := List.filter is_case (map get_text spans) in
    length cases = length opening /\
    e' = [] ++ concat (map warnings opening) ++
         [dbg_line (u "Total " ++ str (Z.of_nat (length spans)) ++
                    u " spans iterated, found " ++ str (Z.of_nat (length cases)))
                   DEBUG].
Proof.
  intros soup.
  destruct (find_cases soup []) as [[cases e']|x] eqn:E.
  - exists cases, e'. split; [reflexivity|].
    apply (find_cases_log soup [] cases e' E).
  - exfalso. vm_compute in E. discriminate E.
Defined.

Lemma set_last_trace_Forall (P : Case -> Prop) (cases cases' : list Case) t :
  (forall c, P c -> P (with_trace t c)) ->
  set_last_trace cases t = Ok cases' ->
  Forall P cases -> Forall P cases'.
Proof.
  intros HP H HF.
  destruct cases as [|c0 l0] using rev_ind; [discriminate|].
  rewrite set_last_trace_snoc in H. inversion H; subst.
  apply Forall_app in HF as [HF1 HF2]. apply Forall_app. split; [exact HF1|].
  inversion HF2; subst. constructor; [now apply HP | constructor].
Qed.

Lemma walk_spans_traces D spans : forall w w',
  (forall sp, In sp spans -> In (get_text sp) D) ->
  walk_spans w spans = Ok w' ->
  Forall (fun c => trace c = [] \/ In (trace c) D) (all_cases w) ->
  Forall (fun c => trace c = [] \/ In (trace c) D) (all_cases w').
Proof.
  induction spans as [|sp spans IH]; intros w w' Hin H HF.
  - cbn in H. now inversion H; subst.
  - cbn [walk_spans] in H. rewrite span_step_any in H.
    destruct (if flag w then set_last_trace (all_cases w) (get_text sp)
              else Ok (all_cases w)) as [cases1|x] eqn:E1; [|discriminate].
    cbn [bind] in H.
    destruct (unreadable (get_text sp)); [discriminate|].
    cbn [bind] in H. apply IH in H; [exact H | |].
    + intros sp' Hsp. apply Hin. now right.
    + cbn [all_cases].
      assert (HF1 : Forall (fun c => trace c = [] \/ In (trace c) D) cases1).
      { destruct (flag w); [|now inversion E1; subst].
        eapply set_last_trace_Forall; [| exact E1 | exact HF].
        intros c _. right. cbn [with_trace trace]. apply Hin. now left. }
      destruct (is_case (get_text sp)); [|exact HF1].
      apply Forall_app. split; [exact HF1|].
      constructor; [now left | constructor].
Qed.

(** X11.  The activity trace of a returned record is either empty or the
    text of one of the nodes of the page: nothing else is ever stored in
    it. *)
Theorem traces_are_node_texts D cases :
  extract D = Ok cases ->
  Forall (fun c => trace c = [] \/ In (trace c) D) cases.
Proof.
  unfold extract. rewrite cases_of_find_cases. cbn [page find_all_span].
  fold (spans_of D).
  destruct (walk_spans (walk_init []) (spans_of D)) as [w|x] eqn:E; [|discriminate].
  cbn [rmap bind]. intros H. inversion H; subst.
  eapply walk_spans_traces; [| exact E | constructor].
  intros sp Hsp. unfold spans_of in Hsp.
  apply in_map_iff in Hsp as (t & <- & Ht). exact Ht.
Qed.

Lemma traces_are_node_texts_witness :
  let D := [u "确诊病例3，女，61岁，现住广陵区。"; u "活动轨迹"; u "超市、菜场"] in
  exists cases,
    extract D = Ok cases /\
    Forall (fun c => trace c = [] \/ In (trace c) D) cases.
Proof.
  intros D. destruct (extract D) as [cases|x] eqn:E.
  - exists cases. split; [reflexivity|].
    apply (traces_are_node_texts D cases E).
  - exfalso. vm_compute in E. discriminate E.
Defined.

End WalkMore.

(** ** Traces, empty records and rows *)

Section TracesRows.

Implicit Types (w : walk) (t p lab : text) (pre : list text) (c : Case).

(** Nodes that neither open a case nor are a label leave the records and
    an unset flag as they are. *)
Lemma walk_spans_plain pre : forall w,
  flag w = false ->
  forallb (fun t => negb (is_case t) && negb (is_label t)) pre = true ->
  exists w1, walk_spans w (spans_of pre) = Ok w1 /\
             all_cases w1 = all_cases w /\ flag w1 = false.
Proof.
  induction pre as [|t pre IH]; intros w Hf Hpre.
  - exists w. auto.
  - cbn [forallb] in Hpre. apply andb_true_iff in Hpre as [Ht Hpre].
    apply andb_true_iff in Ht as [Hc Hl].
    apply negb_true_iff in Hc. apply negb_true_iff in Hl.
    cbn [spans_of map walk_spans].
    rewrite span_step_eq by (now apply not_case_readable). cbn [get_text].
    rewrite Hf, Hc, Hl. cbn [bind]. fold (spans_of pre).
    match goal with |- context [walk_spans ?w0 (spans_of pre)] =>
      destruct (IH w0 eq_refl Hpre) as (w1 & E & Hcs & Hfl) end.
    exists w1. cbn [all_cases] in Hcs. auto.
Qed.

Lemma case_not_label t : is_case t = true -> is_label t = false.
Proof.
  intros Hc. destruct (is_label t) eqn:Hl; [|reflexivity].
  apply label_not_case in Hl. congruence.
Qed.

Lemma set_last_trace_one c t : set_last_trace [c] t = Ok [with_trace t c].
Proof. exact (set_last_trace_snoc [] c t). Qed.

(** The last three nodes of the pages below, run from a state without
    records and with the flag unset. *)
Lemma walk_case_label_text w p lab t :
  all_cases w = [] -> flag w = false ->
  is_case p = true -> ints_readable p = true ->
  is_label lab = true -> is_case t = false ->
  rmap core (walk_spans w (spans_of [p; lab; t])) =
  Ok ([with_trace t (record_of p)], is_label t).
Proof.
  intros Hnil Hf Hp Hr Hl Ht.
  cbn [spans_of map walk_spans].
  rewrite span_step_eq by (now apply readable_case). cbn [get_text].
  rewrite Hf, Hnil, Hp, (case_not_label _ Hp). cbn [bind app].
  rewrite span_step_eq
    by (apply not_case_readable; now apply label_not_case).
  cbn [get_text flag all_cases].
  rewrite (label_not_case _ Hl), Hl. cbn [bind].
  rewrite span_step_eq by (now apply not_case_readable).
  cbn [get_text flag all_cases].
  rewrite Ht, set_last_trace_one. reflexivity.
Qed.

(** X12.  After nodes that neither open a case nor are a label, a node
    that opens a case (with numbers of at most 4300 digits), then a label,
    then a node that opens no case: the page gives one record, that of the
    opening node, with the text of the last node as its activity trace. *)
Theorem trace_follows_label pre p lab t :
  forallb (fun t => negb (is_case t) && negb (is_label t)) pre = true ->
  is_case p = true ->
  ints_readable p = true ->
  is_label lab = true ->
  is_case t = false ->
  extract (pre ++ [p; lab; t]) = Ok [with_trace t (record_of p)].
Proof.
  intros Hpre Hp Hr Hl Ht. unfold extract. rewrite cases_of_find_cases.
  cbn [page find_all_span]. fold (spans_of (pre ++ [p; lab; t])).
  unfold spans_of at 1. rewrite map_app. fold (spans_of pre) (spans_of [p; lab; t]).
  rewrite walk_spans_app.
  destruct (walk_spans_plain pre (walk_init []) eq_refl Hpre) as (w1 & E & Hcs & Hf).
  rewrite E. cbn [bind].
  pose proof (walk_case_label_text w1 p lab t Hcs Hf Hp Hr Hl Ht) as H.
  destruct (walk_spans w1 (spans_of [p; lab; t])) as [w2|x]; [|discriminate].
  unfold rmap in *. cbn [bind] in *. unfold core in H. congruence.
Qed.

Lemma trace_follows_label_witness :
  let pre := [u "扬州市通报"] in
  let p := u "确诊病例3，女，61岁，现住广陵区。" in
  let lab := u "活动轨迹：" in
  let t := u "超市、菜场" in
  forallb (fun t => negb (is_case t) && negb (is_label t)) pre = true /\
  is_case p = true /\
  ints_readable p = true /\
  is_label lab = true /\
  is_case t = false /\
  extract (pre ++ [p; lab; t]) = Ok [with_trace t (record_of p)].
Proof.
  intros pre p lab t.
  split; [reflexivity|]. split; [reflexivity|]. split; [reflexivity|].
  split; [reflexivity|]. split; [reflexivity|].
  apply (trace_follows_label pre p lab t); reflexivity.
Defined.

(** X13.  A second label and text after the first pair replace the trace:
    the record keeps only the text that follows the last label. *)
Theorem later_trace_replaces_earlier p lab1 t1 lab2 t2 :
  is_case p = true ->
  ints_readable p = true ->
  is_label lab1 = true -> is_case t1 = false ->
  is_label lab2 = true -> is_case t2 = false ->
  extract [p; lab1; t1; lab2; t2] = Ok [with_trace t2 (record_of p)].
Proof.
  intros Hp Hr Hl1 Ht1 Hl2 Ht2. unfold extract. rewrite cases_of_find_cases.
  cbn [page find_all_span map walk_spans].
  rewrite span_step_eq by (now apply readable_case).
  cbn [get_text walk_init flag all_cases].
  rewrite Hp. cbn [bind app].
  rewrite span_step_eq
    by (apply not_case_readable; now apply label_not_case).
  cbn [get_text flag all_cases].
  rewrite (case_not_label _ Hp), (label_not_case _ Hl1), Hl1. cbn [bind].
  rewrite span_step_eq by (now apply not_case_readable).
  cbn [get_text flag all_cases].
  rewrite Ht1, set_last_trace_one. cbn [bind].
  rewrite span_step_eq
    by (apply not_case_readable; now apply label_not_case).
  cbn [get_text flag all_cases].
  rewrite (label_not_case _ Hl2), Hl2.
  destruct (is_label t1); rewrite ?set_last_trace_one; cbn [bind];
    (rewrite span_step_eq by (now apply not_case_readable));
    cbn [get_text flag all_cases];
    rewrite Ht2, set_last_trace_one; reflexivity.
Qed.

Lemma later_trace_replaces_earlier_witness :
  let p := u "确诊病例3，女，61岁，现住广陵区。" in
  let lab1 := u "活动轨迹" in
  let t1 := u "超市、菜场" in
  let lab2 := u "活动轨迹" in
  let t2 := u "药店" in
  is_case p = true /\
  ints_readable p = true /\
  is_label lab1 = true /\ is_case t1 = false /\
  is_label lab2 = true /\ is_case t2 = false /\
  extract [p; lab1; t1; lab2; t2] = Ok [with_trace t2 (record_of p)].
Proof.
  intros p lab1 t1 lab2 t2.
  split; [reflexivity|]. split; [reflexivity|]. split; [reflexivity|].
  split; [reflexivity|]. split; [reflexivity|]. split; [reflexivity|].
  apply (later_trace_replaces_earlier p lab1 t1 lab2 t2); reflexivity.
Defined.

Lemma field_number_found r t m :
  search (Seq (Plus digit) r) t = Some m ->
  0 <= int_of_digits (first_digit_run m).
Proof. intros _. apply int_of_digits_nonneg, first_digit_run_digits. Qed.

(** X14.  The record read from a paragraph is empty exactly when the
    paragraph shows no gender, no age and no close contact and its address
    is empty; the identifier plays no part, so a paragraph with nothing but
    its case number gives a record that the export leaves out. *)
Theorem record_is_empty_iff t :
  is_empty (record_of t) = true <->
  search pat_gender t = None /\ search pat_age t = None /\
  search pat_close_contact t = None /\ address (record_of t) = [].
Proof.
  rewrite is_empty_iff.
  cbn [record_of gender age close_contact_id address trace].
  unfold field_gender, field_age, field_close_contact.
  split.
  - intros (Hg & Hc & Ha & Hd & _).
    destruct (search pat_gender t) as [mg|];
      [destruct (bool_decide (mg = u "男")); discriminate|].
    destruct (search pat_age t) as [ma|] eqn:Ea;
      [pose proof (field_number_found _ _ _ Ea); lia|].
    destruct (search pat_close_contact t) as [mc|] eqn:Ec;
      [pose proof (field_number_found _ _ _ Ec); lia|].
    auto.
  - intros (-> & -> & -> & Hd). auto.
Qed.

Lemma split_length sep (s : text) :
  length (split sep s) = S (count_occ Z.eq_dec s sep).
Proof.
  induction s as [|c s IH]; [reflexivity|].
  cbn [split count_occ]. destruct (Z.eq_dec c sep) as [->|Hne].
  - rewrite Z.eqb_refl. cbn [length]. now rewrite IH.
  - apply Z.eqb_neq in Hne. rewrite Hne.
    destruct (split sep s) as [|w ws]; [discriminate IH|].
    exact IH.
Qed.

Lemma count_occ_str n : count_occ Z.eq_dec (str n) comma = 0%nat.
Proof. apply count_occ_not_In, str_no_comma. Qed.

(** X15.  A row is written without quoting: cut at its commas it has six
    fields plus one for every comma inside the address and the trace. *)
Theorem csv_field_count c :
  length (split comma (slice (csv c) 0 (-1))) =
  (6 + count_occ Z.eq_dec (address c) comma
     + count_occ Z.eq_dec (trace c) comma)%nat.
Proof.
  unfold csv. rewrite !app_assoc, slice_drop_last, <- !app_assoc.
  rewrite split_length, !count_occ_app, !count_occ_str.
  change (count_occ Z.eq_dec [comma] comma) with 1%nat.
  unfold char. lia.
Qed.

End TracesRows.

(** ** The whole run *)

Section Run.

Variable fetch : text -> result BeautifulSoup.

Implicit Types (urls : list text) (all : list Case).

(** X16.  The records of the visited pages are put one after the other in
    the order of the visit, after those gathered before; nothing is merged
    or dropped, so a case reported on two pages is gathered twice. *)
Theorem visit_concatenates urls (pages : list (list Case)) all e :
  Forall2 (fun url cases =>
             exists soup, fetch url = Ok soup /\
                          cases_of (find_cases soup []) = Ok cases)
          urls pages ->
  cases_of (visit fetch all e urls) = Ok (all ++ concat pages).
Proof.
  rewrite visit_gather. intros H. revert all.
  induction H as [|url cases urls pages (soup & Hf & Hc) _ IH]; intros all.
  - cbn. now rewrite app_nil_r.
  - cbn [gather concat]. rewrite Hf. cbn [bind]. rewrite Hc. cbn [bind].
    rewrite IH. now rewrite <- app_assoc.
Qed.

End Run.

Lemma visit_concatenates_witness :
  let fetch := fun url : text =>
    if bool_decide (url = u "http://a") then Ok first_page else Ok bulletin in
  let urls := [u "http://a"; u "http://c"] in
  let pages := [[mkCase 3 1 (-1) 61 (u "广陵区") []];
                [mkCase 7 (-1) (-1) (-1) [] [];
                 mkCase 3 1 (-1) 61 (u "广陵区") (u "超市、菜场")]] in
  Forall2 (fun url cases =>
             exists soup, fetch url = Ok soup /\
                          cases_of (find_cases soup []) = Ok cases)
          urls pages /\
  cases_of (visit fetch [] [] urls) = Ok ([] ++ concat pages).
Proof.
  intros fetch urls pages.
  assert (H : Forall2 (fun url cases =>
             exists soup, fetch url = Ok soup /\
                          cases_of (find_cases soup []) = Ok cases)
          urls pages).
  { constructor; [exists first_page; split; vm_compute; reflexivity|].
    constructor; [exists bulletin; split; vm_compute; reflexivity|].
    constructor. }
  split; [exact H|].
  apply (visit_concatenates fetch urls pages [] [] H).
Defined.

(** ** The order of the export *)

Section Order.

Implicit Types (c d : Case) (l : list Case).

Lemma insert_by_id_hd c d l :
  by_id d c -> HdRel by_id d l -> HdRel by_id d (insert_by_id c l).
Proof.
  intros Hdc Hd. destruct l as [|d' l]; cbn [insert_by_id].
  - now constructor.
  - inversion Hd; subst.
    destruct (case_id c <=? case_id d'); now constructor.
Qed.

Lemma insert_by_id_sorted c l :
  Sorted by_id l -> Sorted by_id (insert_by_id c l).
Proof.
  induction l as [|d l IH]; intros Hs; cbn [insert_by_id].
  - repeat constructor.
  - inversion Hs; subst.
    destruct (case_id c <=? case_id d) eqn:E.
    + constructor; [exact Hs|]. constructor. unfold by_id. lia.
    + constructor; [now apply IH|].
      apply insert_by_id_hd; [unfold by_id; lia | assumption].
Qed.

Lemma insert_by_id_filter (k : Z) c l :
  List.filter (fun d => case_id d =? k) (insert_by_id c l) =
  List.filter (fun d => case_id d =? k) (c :: l).
Proof.
  induction l as [|d l IH]; [reflexivity|].
  cbn [insert_by_id]. destruct (case_id c <=? case_id d) eqn:E; [reflexivity|].
  cbn [List.filter] in *. rewrite IH.
  destruct (case_id c =? k) eqn:Ec; [|reflexivity].
  destruct (case_id d =? k) eqn:Ed; [lia | reflexivity].
Qed.

(** X17.  The records go to the console and to the file in the order of
    their identifiers, smallest first; records with the same identifier
    keep the order in which they were gathered. *)
Theorem sort_by_id_stable l :
  Sorted by_id (sort_by_id l) /\
  forall k : Z,
    List.filter (fun d => case_id d =? k) (sort_by_id l) =
    List.filter (fun d => case_id d =? k) l.
Proof.
  split.
  - induction l as [|c l IH]; [constructor|].
    cbn [sort_by_id fold_right]. now apply insert_by_id_sorted.
  - intros k. induction l as [|c l IH]; [reflexivity|].
    cbn [sort_by_id fold_right]. fold (sort_by_id l).
    rewrite insert_by_id_filter. cbn [List.filter]. now rewrite IH.
Qed.

End Order.

(** ** The fields of a record *)

Section Fields.

Implicit Types (s t m p ds : text) (c : Case) (e : list text).










(** The example of C5: the age is missing, the other fields are read, and
    the missing age is reported on the diagnostic stream. *)
Example example_missing_age :
  let t := u "确诊病例13，女，现住广陵区。" in
  find_cases (page [t]) [] =
  Ok ([mkCase 13 1 (-1) (-1) (u "广陵区") []],
      [u "[WARN ] no close contact found for 13" ++ [newline];
       u "[ERROR] unexpected: did not find age for 13, check source format?" ++ [newline];
       u "[DEBUG] Total 1 spans iterated, found 1" ++ [newline]]).
Proof. vm_compute. reflexivity. Qed.

End Fields.
